(** * torchcde: the CDE solver layer ([torchcde/solver.py])

    A shallow embedding of [solver.py] (the compatibility check, the
    [_VectorField] adapter and [cdeint]) together with the fragment of the
    tensor library the solver calls ([shape], [size], [unsqueeze],
    [squeeze], [@], [cat], [permute]).

    Tensors are a shape and a row-major list of entries.  The entries live
    in an arbitrary type with an addition and a multiplication: nothing
    below depends on their laws, so the results hold for whatever
    arithmetic the entries have.

    The solver runs in a monad of results with a trace: every evaluation
    of [X] and [func], every warning, [print] and the call of the
    integrator is an event, so that statements on what is evaluated, and
    when, are statements on the trace. *)

From stdpp Require Import base list strings gmap.
From Stdlib Require Import ZArith Lia.

Local Open Scope Z_scope.
Local Open Scope nat_scope.

(** ** Entries *)

Class Scalar (A : Type) := {
  szero : A;
  sadd : A -> A -> A;
  smul : A -> A -> A
}.

#[global] Instance Z_Scalar : Scalar Z :=
  {| szero := 0%Z; sadd := Z.add; smul := Z.mul |}.

(** ** Row-major indexing *)

Module Idx.

(** Number of entries of a shape. *)
Definition numel (s : list nat) : nat := fold_right Nat.mul 1 s.

(** Position of a multi-index in row-major order. *)
Fixpoint offset (s idx : list nat) : nat :=
  match s, idx with
  | n :: s', i :: idx' => i * numel s' + offset s' idx'
  | _, _ => 0
  end.

(** All multi-indices of a shape, in row-major order. *)
Fixpoint indices (s : list nat) : list (list nat) :=
  match s with
  | [] => [[]]
  | n :: s' => flat_map (fun i => map (cons i) (indices s')) (seq 0 n)
  end.

(** [idx] addresses an entry of a tensor of shape [s]. *)
Definition valid (s idx : list nat) : Prop := Forall2 (fun i n => i < n) idx s.

End Idx.

(** ** Tensors *)

Record Tensor (A : Type) := mkTensor {
  shape : list nat;
  data : list A
}.
Arguments mkTensor {A} _ _.
Arguments shape {A} _.
Arguments data {A} _.

Section TensorOps.
Context {A : Type} `{Scalar A}.

(** Storage and shape agree. *)
Definition wf (x : Tensor A) : Prop := length (data x) = Idx.numel (shape x).

Definition get (x : Tensor A) (idx : list nat) : A :=
  nth (Idx.offset (shape x) idx) (data x) szero.

(** The tensor of shape [s] whose entry at [idx] is [g idx]. *)
Definition build (s : list nat) (g : list nat -> A) : Tensor A :=
  mkTensor s (map g (Idx.indices s)).

Definition ndim (x : Tensor A) : nat := length (shape x).

End TensorOps.


(** ** Exceptions and results *)

(** The [ValueError]s of [solver.py], one per [raise]; the shape errors
    carry the two shapes their message spells out. *)
Inductive msg :=
| NotRecognised
| NoDerivative
| DerivativeBatchDims (cg z0 : list nat)
| FuncBatchDims (sys z0 : list nat)
| FuncHiddenChannels (sys z0 : list nat)
| FuncInputChannels (sys cg : list nat)
| ProdShape (vf z0 : list nat)
| DerivativeNotTensor
| ProdNotTensor
| FuncNotTensor
| DerivativeNotTuple
| DerivativeLength
| ProdNotTuple
| ProdLength
| DerivativeElement
| ProdElement
| FuncNotTuple
| FuncLength
| FuncElement
| Z0Type.

Inductive exn :=
| ValueError (m : msg)
| NotImplementedError
| IndexError
| TypeError
| AttributeError
| RuntimeError
| Raised (code : nat).   (* an exception of a callback or of the integrator *)

Inductive res (X : Type) :=
| Ok (x : X)
| Err (e : exn).
Arguments Ok {X} _.
Arguments Err {X} _.

#[global] Instance res_ret : MRet res := @Ok.
#[global] Instance res_bind : MBind res :=
  fun X Y f m => match m with Ok x => f x | Err e => Err e end.

(** [is_shape_error e]: [e] is one of the five shape errors of the
    per-tensor checks. *)
Definition is_shape_error (e : exn) : bool :=
  match e with
  | ValueError (DerivativeBatchDims _ _) | ValueError (FuncBatchDims _ _)
  | ValueError (FuncHiddenChannels _ _) | ValueError (FuncInputChannels _ _)
  | ValueError (ProdShape _ _) => true
  | _ => false
  end.

(** ** The tensor operations the solver uses *)

(** The Python slice [s[:-k]]. *)
Definition upto_last (k : nat) (s : list nat) : list nat := take (length s - k) s.

(** A dimension argument [d] of a tensor with [n] dimensions: [-n <= d < n],
    negative ones counted from the end. *)
Definition wrap_dim (n : nat) (d : Z) : option nat :=
  if (0 <=? d)%Z && (d <? Z.of_nat n)%Z then Some (Z.to_nat d)
  else if (- Z.of_nat n <=? d)%Z && (d <? 0)%Z then Some (Z.to_nat (d + Z.of_nat n))
  else None.

Definition broadcast_dim (a b : nat) : option nat :=
  if a =? b then Some a
  else if a =? 1 then Some b
  else if b =? 1 then Some a
  else None.

(** Broadcasting of two shapes given last dimension first. *)
Fixpoint broadcast_rev (ra rb : list nat) : option (list nat) :=
  match ra, rb with
  | [], _ => Some rb
  | _, [] => Some ra
  | a :: ra', b :: rb' =>
      match broadcast_dim a b, broadcast_rev ra' rb' with
      | Some d, Some r => Some (d :: r)
      | _, _ => None
      end
  end.

Definition broadcast_shapes (a b : list nat) : option (list nat) :=
  option_map (@List.rev nat) (broadcast_rev (List.rev a) (List.rev b)).

(** The index into an operand of batch shape [s] that the index [bidx] into
    the broadcast batch shape reads. *)
Definition bcast_idx (s bidx : list nat) : list nat :=
  zip_with (fun n i => if n =? 1 then 0 else i) s (drop (length bidx - length s) bidx).

(** Position of [q] in [ps] ([length ps] when absent). *)
Fixpoint index_of (q : nat) (ps : list nat) : nat :=
  match ps with
  | [] => 0
  | p :: ps' => if p =? q then 0 else S (index_of q ps')
  end.

Fixpoint distinct (ps : list nat) : bool :=
  match ps with
  | [] => true
  | p :: ps' => negb (existsb (Nat.eqb p) ps') && distinct ps'
  end.

Section Torch.
Context {A : Type} `{Scalar A}.

(** [x.size(d)] *)
Definition size (x : Tensor A) (d : Z) : res nat :=
  match wrap_dim (ndim x) d with
  | Some i => Ok (nth i (shape x) 0)
  | None => Err IndexError
  end.

(** [x.unsqueeze(d)]: a dimension of size one inserted at [d]. *)
Definition unsqueeze (x : Tensor A) (d : Z) : res (Tensor A) :=
  match wrap_dim (S (ndim x)) d with
  | Some p => Ok (mkTensor (take p (shape x) ++ 1 :: drop p (shape x)) (data x))
  | None => Err IndexError
  end.

(** [x.squeeze(d)]: dimension [d] removed when its size is one. *)
Definition squeeze (x : Tensor A) (d : Z) : res (Tensor A) :=
  match wrap_dim (Nat.max (ndim x) 1) d with
  | Some p =>
      if (p <? ndim x) && (nth p (shape x) 0 =? 1)
      then Ok (mkTensor (take p (shape x) ++ drop (S p) (shape x)) (data x))
      else Ok x
  | None => Err IndexError
  end.

(** Sum of the products [f l * g l] for [l = 0 .. k-1], in this order. *)
Definition dot (k : nat) (f g : nat -> A) : A :=
  fold_left (fun acc l => sadd acc (smul (f l) (g l))) (seq 0 k) szero.

(** [a @ b] ([torch.matmul]): a one-dimensional operand is taken as a row
    (left) or a column (right) and the added dimension is removed from the
    result; the dimensions before the last two are batch dimensions and
    are broadcast. *)
Definition matmul (a b : Tensor A) : res (Tensor A) :=
  if (ndim a =? 0) || (ndim b =? 0) then Err RuntimeError
  else
    let sa := if ndim a =? 1 then 1 :: shape a else shape a in
    let sb := if ndim b =? 1 then shape b ++ [1] else shape b in
    let ba := upto_last 2 sa in
    let bb := upto_last 2 sb in
    let m := nth (length sa - 2) sa 0 in
    let k := nth (length sa - 1) sa 0 in
    let k' := nth (length sb - 2) sb 0 in
    let p := nth (length sb - 1) sb 0 in
    if k =? k' then
      match broadcast_shapes ba bb with
      | Some bs =>
          let a' := mkTensor sa (data a) in
          let b' := mkTensor sb (data b) in
          let full :=
            build (bs ++ [m; p]) (fun idx =>
              let bi := take (length bs) idx in
              let i := nth (length bs) idx 0 in
              let j := nth (S (length bs)) idx 0 in
              dot k (fun l => get a' (bcast_idx ba bi ++ [i; l]))
                    (fun l => get b' (bcast_idx bb bi ++ [l; j]))) in
          Ok (mkTensor (bs ++ (if ndim a =? 1 then [] else [m])
                           ++ (if ndim b =? 1 then [] else [p]))
                       (data full))
      | None => Err RuntimeError
      end
    else Err RuntimeError.

(** [torch.cat([a, b], -1)]: a tensor without dimensions cannot be
    concatenated; otherwise a tensor of shape [(0,)] is skipped, and the
    shapes agree but for the last dimension. *)
Definition cat_last (a b : Tensor A) : res (Tensor A) :=
  if (ndim a =? 0) || (ndim b =? 0) then Err RuntimeError
  else if decide (shape a = [0]) then Ok b
  else if decide (shape b = [0]) then Ok a
  else if decide (ndim a = ndim b /\ upto_last 1 (shape a) = upto_last 1 (shape b)) then
    let ha := List.last (shape a) 0 in
    let hb := List.last (shape b) 0 in
    Ok (build (upto_last 1 (shape a) ++ [ha + hb]) (fun idx =>
          let bi := upto_last 1 idx in
          let c := List.last idx 0 in
          if c <? ha then get a (bi ++ [c]) else get b (bi ++ [c - ha])))
  else Err RuntimeError.

(** [x.permute( *dims )]: [dims] names each dimension once; dimension [j]
    of the result is dimension [dims[j]] of [x]. *)
Definition permute (x : Tensor A) (dims : list Z) : res (Tensor A) :=
  if length dims =? ndim x then
    match mapM (wrap_dim (ndim x)) dims with
    | Some ps =>
        if distinct ps then
          Ok (build (map (fun p => nth p (shape x) 0) ps) (fun idx =>
                get x (map (fun q => nth (index_of q ps) idx 0) (seq 0 (ndim x)))))
        else Err RuntimeError
    | None => Err IndexError
    end
  else Err RuntimeError.

(** Iterating over a tensor yields its slices along the first dimension. *)
Definition unbind (x : Tensor A) : res (list (Tensor A)) :=
  match shape x with
  | [] => Err TypeError
  | n :: s =>
      Ok (map (fun i => mkTensor s (take (Idx.numel s) (drop (i * Idx.numel s) (data x))))
              (seq 0 n))
  end.

(** The contraction of [vf] (shape [batch ++ [hidden; input]]) with [cg]
    (shape [batch ++ [input]]) over the input dimension, as the
    specification words it: entry [b ++ [r]] is the sum over [l] of
    [vf[b ++ [r; l]] * cg[b ++ [l]]]. *)
Definition contract (vf cg : Tensor A) : Tensor A :=
  build (upto_last 1 (shape vf)) (fun idx =>
    dot (List.last (shape vf) 0)
        (fun l => get vf (idx ++ [l]))
        (fun l => get cg (upto_last 1 idx ++ [l]))).

(** A contraction is possible: the vector field has a hidden and an input
    dimension after the batch dimensions of the control gradient. *)
Definition contractible (vf cg : Tensor A) : Prop :=
  exists batch h i, shape vf = batch ++ [h; i] /\ shape cg = batch ++ [i].

(** The integrator's contract for one state component [z]: the result
    has the times first, then the dimensions of [z], and [z] has a channel
    dimension. *)
Definition sequence_first (T : nat) (z raw : Tensor A) : Prop :=
  (exists batch hidden, shape z = batch ++ [hidden]) /\ shape raw = T :: shape z.

(** The public layout of a trajectory: [out[b..., s, c] = raw[s, b..., c]]
    with the shape [batch ++ [T; hidden]]. *)
Definition path_layout (T : nat) (z raw out : Tensor A) : Prop :=
  exists batch hidden,
    shape z = batch ++ [hidden] /\
    shape out = batch ++ [T; hidden] /\
    wf out /\
    (forall bi s c, Idx.valid batch bi -> s < T -> c < hidden ->
       get out (bi ++ [s; c]) = get raw (s :: bi ++ [c])).

End Torch.

(** ** Python values *)

(** What [z0], [X.derivative(t)], [func(t, z)] and the integrator's result
    can be: a tensor, a tuple, a list, or some other object. *)
#[warnings="-register-all"]
Inductive value (A : Type) :=
| VTensor (x : Tensor A)
| VTuple (items : list (value A))
| VList (items : list (value A))
| VOther.
Arguments VTensor {A} _.
Arguments VTuple {A} _.
Arguments VList {A} _.
Arguments VOther {A}.

(** A decimal literal [mant * 10 ^ exp10], as in [1e-6]. *)
Record dec := mkDec { mant : Z; exp10 : Z }.

(** A keyword argument: a number, an iterable given by the identities
    ([id]) of its items, or any other (non-iterable) object. *)
Inductive kwval :=
| KFloat (x : dec)
| KSeq (ids : list nat)
| KObj (n : nat).

(** A buffer of the control path: its identity and whether it requires
    gradients. *)
Record Buffer := mkBuffer { buf_id : nat; requires_grad : bool }.

(** The control path [X]: [derivative] and [evaluate] are attributes that
    may be missing. *)
Record Path (A : Type) := mkPath {
  derivative : option (A -> res (value A));
  evaluate : option (A -> res (value A));
  buffers : list Buffer
}.
Arguments mkPath {A} _ _ _.
Arguments derivative {A} _.
Arguments evaluate {A} _.
Arguments buffers {A} _.

(** The vector field [func]: callable, with an optional [prod]. *)
Record Func (A : Type) := mkFunc {
  call : A -> value A -> res (value A);
  prod : option (A -> value A -> value A -> res (value A))
}.
Arguments mkFunc {A} _ _.
Arguments call {A} _.
Arguments prod {A} _.

(** ** Effects: a trace of what the solver evaluates *)

Inductive event (A : Type) :=
| EvDerivative (t : A)                       (* X.derivative(t) *)
| EvEvaluate (t : A)                         (* X.evaluate(t) *)
| EvFunc (t : A) (z : value A)               (* func(t, z) *)
| EvProd (t : A) (z cg : value A)            (* func.prod(t, z, cg) *)
| EvPrint (v : value A)                      (* print(v) *)
| EvWarn (buffer : nat)                      (* warnings.warn(...) *)
| EvOdeint (adjoint : bool) (y0 : value A) (t : list A) (kwargs : gmap string kwval).
Arguments EvDerivative {A} _.
Arguments EvEvaluate {A} _.
Arguments EvFunc {A} _ _.
Arguments EvProd {A} _ _ _.
Arguments EvPrint {A} _.
Arguments EvWarn {A} _.
Arguments EvOdeint {A} _ _ _ _.

(** The events of a computation other than the call of the integrator. *)
Definition not_odeint {A} (ev : event A) : Prop :=
  match ev with
  | EvOdeint _ _ _ _ => False
  | _ => True
  end.

(** A computation: its result or exception, and the events up to it. *)
Definition M (A X : Type) : Type := res X * list (event A).

#[global] Instance M_ret {A} : MRet (M A) := fun X x => (Ok x, []).
#[global] Instance M_bind {A} : MBind (M A) :=
  fun X Y f m =>
    match m with
    | (Ok x, tr) => let '(r, tr') := f x in (r, tr ++ tr')
    | (Err e, tr) => (Err e, tr)
    end.

Definition raise {A X} (e : exn) : M A X := (Err e, []).
Definition emit {A} (ev : event A) : M A unit := (Ok tt, [ev]).
Definition lift {A X} (r : res X) : M A X := (r, []).

(** The computation raises, and the integrator has not been called. *)
Definition raises_before_integration {A X} (run : M A X) : Prop :=
  (exists e, run.1 = Err e) /\ Forall not_odeint run.2.

(** The external integrator ([torchdiffeq.odeint], [odeint_adjoint]): it
    returns, raises, or evaluates the right-hand side at some [(t, z)] and
    goes on with the value; an exception of the right-hand side ends the
    run. *)
Inductive plan (A : Type) :=
| Return (out : value A)
| Raise (e : exn)
| Eval (t : A) (z : value A) (k : value A -> plan A).
Arguments Return {A} _.
Arguments Raise {A} _.
Arguments Eval {A} _ _ _.

Fixpoint run_plan {A} (rhs : A -> value A -> M A (value A)) (p : plan A)
  : M A (value A) :=
  match p with
  | Return out => mret out
  | Raise e => raise e
  | Eval t z k => v ← rhs t z; run_plan rhs (k v)
  end.

Definition integrator (A : Type) : Type :=
  value A -> list A -> gmap string kwval -> plan A.

(** ** solver.py *)

Section Solver.
Context {A : Type} `{Scalar A}.

Definition _check_compatability_per_tensor_base
    (control_gradient z0 : Tensor A) : res unit :=
  if decide (upto_last 1 (shape control_gradient) ≠ upto_last 1 (shape z0))
  then Err (ValueError (DerivativeBatchDims (shape control_gradient) (shape z0)))
  else Ok tt.

Definition _check_compatability_per_tensor_forward
    (control_gradient system z0 : Tensor A) : res unit :=
  _ ← _check_compatability_per_tensor_base control_gradient z0;
  if decide (upto_last 2 (shape system) ≠ upto_last 1 (shape z0))
  then Err (ValueError (FuncBatchDims (shape system) (shape z0)))
  else
    sys_hidden ← size system (-2);
    z0_hidden ← size z0 (-1);
    if decide (sys_hidden ≠ z0_hidden)
    then Err (ValueError (FuncHiddenChannels (shape system) (shape z0)))
    else
      sys_input ← size system (-1);
      cg_input ← size control_gradient (-1);
      if decide (sys_input ≠ cg_input)
      then Err (ValueError (FuncInputChannels (shape system) (shape control_gradient)))
      else Ok tt.

Definition _check_compatability_per_tensor_prod
    (control_gradient vector_field z0 : Tensor A) : res unit :=
  _ ← _check_compatability_per_tensor_base control_gradient z0;
  if decide (shape vector_field ≠ shape z0)
  then Err (ValueError (ProdShape (shape vector_field) (shape z0)))
  else Ok tt.

(** [z0_.shape] inside the per-tensor checks, for an element of [z0] that
    was not checked to be a tensor. *)
Definition as_tensor (v : value A) : res (Tensor A) :=
  match v with
  | VTensor x => Ok x
  | _ => Err AttributeError
  end.

(** The loop over [zip(control_gradient, vector_field, z0)] of the
    [is_prod] branch. *)
Fixpoint check_elements_prod (cgs vfs z0s : list (value A)) : res unit :=
  match cgs, vfs, z0s with
  | control_gradient_ :: cgs', vector_Field_ :: vfs', z0_ :: z0s' =>
      match control_gradient_ with
      | VTensor cg =>
          match vector_Field_ with
          | VTensor vf =>
              z ← as_tensor z0_;
              _ ← _check_compatability_per_tensor_prod cg vf z;
              check_elements_prod cgs' vfs' z0s'
          | _ => Err (ValueError ProdElement)
          end
      | _ => Err (ValueError DerivativeElement)
      end
  | _, _, _ => Ok tt
  end.

(** The loop over [zip(control_gradient, system, z0)]. *)
Fixpoint check_elements_forward (cgs systems z0s : list (value A)) : res unit :=
  match cgs, systems, z0s with
  | control_gradient_ :: cgs', system_ :: systems', z0_ :: z0s' =>
      match control_gradient_ with
      | VTensor cg =>
          match system_ with
          | VTensor sys =>
              z ← as_tensor z0_;
              _ ← _check_compatability_per_tensor_forward cg sys z;
              check_elements_forward cgs' systems' z0s'
          | _ => Err (ValueError FuncElement)
          end
      | _ => Err (ValueError DerivativeElement)
      end
  | _, _, _ => Ok tt
  end.

(** [isinstance(v, (tuple, list))], with the items. *)
Definition seq_items (v : value A) : option (list (value A)) :=
  match v with
  | VTuple l | VList l => Some l
  | _ => None
  end.


Definition is_tensor_value (v : value A) : Prop :=
  match v with
  | VTensor _ => True
  | _ => False
  end.

(** The checks of [_check_compatability] after [X.derivative] and [func]
    (or [func.prod]) have been evaluated; [out] is [vector_field] when
    [is_prod] and [system] otherwise.  Returns [is_tensor]. *)
Definition check_structure (is_prod : bool) (control_gradient out z0 : value A)
  : res bool :=
  match z0 with
  | VTensor z =>
      match control_gradient with
      | VTensor cg =>
          if is_prod then
            match out with
            | VTensor vf => _ ← _check_compatability_per_tensor_prod cg vf z; Ok true
            | _ => Err (ValueError ProdNotTensor)
            end
          else
            match out with
            | VTensor sys => _ ← _check_compatability_per_tensor_forward cg sys z; Ok true
            | _ => Err (ValueError FuncNotTensor)
            end
      | _ => Err (ValueError DerivativeNotTensor)
      end
  | VTuple z0s | VList z0s =>
      match seq_items control_gradient with
      | Some cgs =>
          if decide (length z0s ≠ length cgs) then Err (ValueError DerivativeLength)
          else if is_prod then
            match seq_items out with
            | Some vfs =>
                if decide (length z0s ≠ length vfs) then Err (ValueError ProdLength)
                else _ ← check_elements_prod cgs vfs z0s; Ok false
            | None => Err (ValueError ProdNotTuple)
            end
          else
            match seq_items out with
            | Some systems =>
                if decide (length z0s ≠ length systems) then Err (ValueError FuncLength)
                else _ ← check_elements_forward cgs systems z0s; Ok false
            | None => Err (ValueError FuncNotTuple)
            end
      | None => Err (ValueError DerivativeNotTuple)
      end
  | VOther => Err (ValueError Z0Type)
  end.

Definition _check_compatability (X : Path A) (func : Func A) (z0 : value A) (t : list A)
  : M A (bool * bool) :=
  match derivative X with
  | None => raise (ValueError NoDerivative)
  | Some X_derivative =>
      match t with
      | [] => raise IndexError
      | t0 :: _ =>
          _ ← emit (EvDerivative t0);
          control_gradient ← lift (X_derivative t0);
          '(is_prod, out) ←
            match prod func with
            | Some func_prod =>
                _ ← emit (EvProd t0 z0 control_gradient);
                vector_field ← lift (func_prod t0 z0 control_gradient);
                mret (true, vector_field)
            | None =>
                _ ← emit (EvFunc t0 z0);
                system ← lift (call func t0 z0);
                mret (false, system)
            end;
          is_tensor ← lift (check_structure is_prod control_gradient out z0);
          mret (is_tensor, is_prod)
      end
  end.

(** The adapter: the attributes [_VectorField.__init__] stores. *)
Record _VectorField := mk_VectorField {
  vf_X : Path A;
  vf_func : Func A;
  is_tensor : bool;
  is_prod : bool;
  method : string
}.

(** [(vector_field @ control_gradient.unsqueeze(-1)).squeeze(-1)] on
    Python values: [unsqueeze] is an attribute of tensors only, and [@]
    takes tensors only. *)
Definition matvec (vector_field control_gradient : value A) : res (value A) :=
  match control_gradient with
  | VTensor cg =>
      column ← unsqueeze cg (-1);
      match vector_field with
      | VTensor vf =>
          product ← matmul vf column;
          out ← squeeze product (-1);
          Ok (VTensor out)
      | _ => Err TypeError
      end
  | _ => Err AttributeError
  end.

(** Iterating over a value ([for], [zip]). *)
Definition iter_value (v : value A) : res (list (value A)) :=
  match v with
  | VTuple l | VList l => Ok l
  | VTensor x => xs ← unbind x; Ok (map VTensor xs)
  | VOther => Err TypeError
  end.

(** The generator over [zip(vector_field, control_gradient)]. *)
Fixpoint matvec_each (vfs cgs : list (value A)) : res (list (value A)) :=
  match vfs, cgs with
  | vector_field_ :: vfs', control_gradient_ :: cgs' =>
      out ← matvec vector_field_ control_gradient_;
      outs ← matvec_each vfs' cgs';
      Ok (out :: outs)
  | _, _ => Ok []
  end.

(** [torch.cat([z, data], -1)] on Python values. *)
Definition torch_cat (z data : value A) : res (value A) :=
  match z, data with
  | VTensor a, VTensor b => c ← cat_last a b; Ok (VTensor c)
  | _, _ => Err TypeError
  end.

Definition forward (self : _VectorField) (t : A) (z : value A) : M A (value A) :=
  match derivative (vf_X self) with
  | None => raise AttributeError
  | Some X_derivative =>
      _ ← emit (EvDerivative t);
      control_gradient ← lift (X_derivative t);
      if is_prod self then
        if decide (method self ≠ "matmul") then raise NotImplementedError
        else
          match prod (vf_func self) with
          | None => raise AttributeError
          | Some func_prod =>
              _ ← emit (EvProd t z control_gradient);
              lift (func_prod t z control_gradient)
          end
      else if decide (method self ∈ ["evaluate"; "derivative"]) then
        let '(attribute, ev) :=
          if decide (method self = "evaluate")
          then (evaluate (vf_X self), EvEvaluate t)
          else (derivative (vf_X self), EvDerivative t) in
        match attribute with
        | None => raise AttributeError
        | Some get_func_data =>
            _ ← emit ev;
            func_data ← lift (get_func_data t);
            func_inputs ← lift (torch_cat z func_data);
            _ ← emit (EvPrint func_inputs);
            _ ← emit (EvFunc t func_inputs);
            lift (call (vf_func self) t func_inputs)
        end
      else
        _ ← emit (EvFunc t z);
        vector_field ← lift (call (vf_func self) t z);
        if is_tensor self then lift (matvec vector_field control_gradient)
        else
          lift (vfs ← iter_value vector_field;
                cgs ← iter_value control_gradient;
                outs ← matvec_each vfs cgs;
                Ok (VTuple outs))
  end.

(** [x in gen] for a generator [gen]: the items up to and including the
    first one equal to [x] are consumed. *)
Fixpoint gen_contains (x : nat) (gen : list nat) : bool * list nat :=
  match gen with
  | [] => (false, [])
  | y :: gen' => if y =? x then (true, gen') else gen_contains x gen'
  end.

(** The loop over [X.buffers()]; [_adjoint_params] is the generator of
    the identities, or the empty tuple. *)
Fixpoint warn_buffers (bufs : list Buffer) (_adjoint_params : list nat)
  : list (event A) :=
  match bufs with
  | [] => []
  | buffer :: bufs' =>
      if requires_grad buffer then
        let '(found, rest) := gen_contains (buf_id buffer) _adjoint_params in
        (if found then [] else [EvWarn (buf_id buffer)]) ++ warn_buffers bufs' rest
      else warn_buffers bufs' _adjoint_params
  end.

(** [iter(kwargs['adjoint_params'])], mapped to identities. *)
Definition iter_ids (v : kwval) : res (list nat) :=
  match v with
  | KSeq ids => Ok ids
  | _ => Err TypeError
  end.

Definition default_atol : kwval := KFloat (mkDec 1 (-6)).
Definition default_rtol : kwval := KFloat (mkDec 1 (-4)).

(** [out.permute( *range(1, len(out.shape) - 1), 0, -1)] *)
Definition to_path_layout (out : value A) : res (value A) :=
  match out with
  | VTensor o =>
      let batch_dims := map Z.of_nat (seq 1 (ndim o - 1 - 1)) in
      p ← permute o (batch_dims ++ [0; -1]%Z);
      Ok (VTensor p)
  | _ => Err AttributeError
  end.

Fixpoint to_path_layout_each (outs : list (value A)) : res (list (value A)) :=
  match outs with
  | [] => Ok []
  | outi :: outs' =>
      p ← to_path_layout outi;
      ps ← to_path_layout_each outs';
      Ok (p :: ps)
  end.

(** Lines 194-197: the tolerances the caller did not give. *)
Definition default_tolerances (kwargs : gmap string kwval) : gmap string kwval :=
  let kwargs := match kwargs !! "atol" with
                | None => <["atol" := default_atol]> kwargs
                | Some _ => kwargs
                end in
  match kwargs !! "rtol" with
  | None => <["rtol" := default_rtol]> kwargs
  | Some _ => kwargs
  end.

(** Lines 202-205: the generator over [kwargs['adjoint_params']], or the
    empty tuple on [KeyError]. *)
Definition adjoint_params_ids (kwargs : gmap string kwval) : res (list nat) :=
  match kwargs !! "adjoint_params" with
  | Some params => iter_ids params
  | None => Ok []
  end.

(** Lines 227-236: the integrator's result in the public layout. *)
Definition reshape_output (is_tensor : bool) (out : value A) : res (value A) :=
  if is_tensor then to_path_layout out
  else
    outs ← iter_value out;
    out_ ← to_path_layout_each outs;
    Ok (VTuple out_).

Definition cdeint (odeint odeint_adjoint : integrator A)
    (X : Path A) (func : Func A) (z0 : value A) (t : list A)
    (adjoint : bool) (vector_field_type : string) (kwargs : gmap string kwval)
  : M A (value A) :=
  if decide (vector_field_type ∉ ["matmul"; "evaluate"; "derivative"])
  then raise (ValueError NotRecognised)
  else
    let kwargs := default_tolerances kwargs in
    '(is_tensor, is_prod) ← _check_compatability X func z0 t;
    _ ← (if adjoint then
           _adjoint_params ← lift (adjoint_params_ids kwargs);
           (Ok tt, warn_buffers (buffers X) _adjoint_params)
         else mret tt);
    let vector_field := mk_VectorField X func is_tensor is_prod vector_field_type in
    _ ← emit (EvOdeint adjoint z0 t kwargs);
    out ← run_plan (forward vector_field)
                   ((if adjoint then odeint_adjoint else odeint) z0 t kwargs);
    lift (reshape_output is_tensor out).

End Solver.

(** ** The gradient-isolation registry *)

Module Autograd.

(** Modelled from the spec: [register_computed_parameter] and the
    differentiation graph it acts on are not part of [solver.py]; only
    [test_computed_parameter] calls them.  A graph is the list of its
    nodes in creation order; a node records the nodes it was computed from
    (its inbound edges) and its data. *)
Record node := mkNode { inputs : list nat; payload : Z }.

Definition graph : Type := list node.

Definition add_node (n : node) (g : graph) : nat * graph := (length g, g ++ [n]).

Definition data_of (g : graph) (v : nat) : Z :=
  payload (nth v g (mkNode [] 0%Z)).

(** A fresh leaf, as [torch.rand(3, requires_grad=True)]. *)
Definition leaf (d : Z) (g : graph) : nat * graph := add_node (mkNode [] d) g.

(** [v.clone()]: same data, computed from [v]. *)
Definition clone (v : nat) (g : graph) : nat * graph :=
  add_node (mkNode [v] (data_of g v)) g.

(** Modelled from the spec: [register(container, name, value)] installs
    under [name] a copy of [value] with the same data and a fresh graph
    node with no inbound edges to whatever produced [value]. *)
Definition register (container : gmap string nat) (name : string) (v : nat) (g : graph)
  : gmap string nat * graph :=
  let '(copy, g') := add_node (mkNode [] (data_of g v)) g in
  (<[name := copy]> container, g').

(** A function of one argument: built from the argument, constants and
    operations of one or two operands. *)
Inductive fn :=
| Arg
| Const (c : Z)
| Op1 (f : fn)
| Op2 (f1 f2 : fn).

(** Computing [F] at the node [arg] adds the nodes of the computation. *)
Fixpoint apply_fn (F : fn) (arg : nat) (g : graph) : nat * graph :=
  match F with
  | Arg => (arg, g)
  | Const c => add_node (mkNode [] c) g
  | Op1 f =>
      let '(v, g1) := apply_fn f arg g in
      add_node (mkNode [v] (data_of g1 v)) g1
  | Op2 f1 f2 =>
      let '(v1, g1) := apply_fn f1 arg g in
      let '(v2, g2) := apply_fn f2 arg g1 in
      add_node (mkNode [v1; v2] (data_of g2 v1 + data_of g2 v2)%Z) g2
  end.

(** For each node, the nodes it depends on: itself and what its inputs
    depend on.  Inputs are created before the node that uses them. *)
Fixpoint closure (g : graph) (table : list (list nat)) : list (list nat) :=
  match g with
  | [] => table
  | n :: g' =>
      closure g' (table ++ [length table :: flat_map (fun j => nth j table []) (inputs n)])
  end.

Definition depends_on (g : graph) (v : nat) : list nat := nth v (closure g []) [].

(** [torch.autograd.grad(out, wrt, allow_unused=True)[0]]: [None] when
    there is no gradient path from [out] to [wrt]; the data of the
    gradient is not modelled. *)
Definition grad (g : graph) (out wrt : nat) : option unit :=
  if decide (wrt ∈ depends_on g out) then Some tt else None.

End Autograd.

(** ** Sample inputs *)

Module Sample.

(** A stand-in integrator: it evaluates the right-hand side at [t[0]] and
    reports the initial state at every time (per component for a tuple or
    list). *)
Definition stack (n : nat) (z : Tensor Z) : Tensor Z :=
  mkTensor (n :: shape z) (concat (replicate n (data z))).

Definition stack_value (n : nat) (v : value Z) : value Z :=
  match v with
  | VTensor z => VTensor (stack n z)
  | _ => v
  end.

Definition trajectory (n : nat) (y0 : value Z) : value Z :=
  match y0 with
  | VTensor z => VTensor (stack n z)
  | VTuple l | VList l => VTuple (map (stack_value n) l)
  | VOther => VOther
  end.

Definition odeint : integrator Z := fun y0 t _ =>
  match t with
  | [] => Raise IndexError
  | t0 :: _ => Eval t0 y0 (fun _ => Return (trajectory (length t) y0))
  end.

(** One batch element, three hidden channels, two input channels. *)
Definition z0 : Tensor Z := mkTensor [1; 3] [1; 2; 3]%Z.
Definition dX (t : Z) : Tensor Z := mkTensor [1; 2] [t; 1]%Z.
Definition system : Tensor Z := mkTensor [1; 3; 2] [1; 2; 3; 4; 5; 6]%Z.

Definition X : Path Z :=
  mkPath (Some (fun t => Ok (VTensor (dX t))))
         (Some (fun t => Ok (VTensor (mkTensor [1; 2] [5; 6]%Z))))
         [mkBuffer 1 true; mkBuffer 2 true; mkBuffer 3 false].

Definition func : Func Z := mkFunc (fun _ _ => Ok (VTensor system)) None.

Definition func_prod : Func Z :=
  mkFunc (fun _ _ => Ok (VTensor system)) (Some (fun _ z _ => Ok z)).

(** The same in multi-state mode, with two components. *)
Definition X2 : Path Z :=
  mkPath (Some (fun t => Ok (VList [VTensor (dX t); VTensor (dX t)]))) None [].

Definition func2 : Func Z :=
  mkFunc (fun _ _ => Ok (VTuple [VTensor system; VTensor system])) None.

(** No batch dimension, and a vector field that returns one value per
    hidden channel instead of a hidden-by-input matrix. *)
Definition z_flat : Tensor Z := mkTensor [3] [1; 2; 3]%Z.

Definition X_flat : Path Z :=
  mkPath (Some (fun t => Ok (VTensor (mkTensor [2] [t; 1]%Z)))) None [].

Definition func_flat : Func Z :=
  mkFunc (fun _ _ => Ok (VTensor (mkTensor [3] [4; 5; 6]%Z))) None.

(** A vector field that returns its input. *)
Definition func_echo : Func Z := mkFunc (fun _ z => Ok z) None.

(** A vector field with three components, one more than [X2] has. *)
Definition func3 : Func Z :=
  mkFunc (fun _ _ => Ok (VTuple [VTensor system; VTensor system; VTensor system])) None.

End Sample.

(** ** test_tricks.py: the vector field of the tests *)

Module TestTricks.
Section Func.
Context {A : Type} `{Scalar A}.

(** The entrywise [sigmoid] of the tensor library. *)
Variable sigmoid : A -> A.

(** [a + b] on tensors: entrywise, the shapes broadcast. *)
Definition add (a b : Tensor A) : res (Tensor A) :=
  match broadcast_shapes (shape a) (shape b) with
  | Some bs =>
      Ok (build bs (fun idx =>
            sadd (get a (bcast_idx (shape a) idx)) (get b (bcast_idx (shape b) idx))))
  | None => Err RuntimeError
  end.

(** A failed [assert]. *)
Definition AssertionError : exn := Raised 0.

Record _Func := mk_Func {
  input_size : nat;
  hidden_size : nat;
  variable : Tensor A
}.

(** [_Func.__init__]; [rand] is the draw of [torch.rand(1, 1, input_size)]. *)
Definition __init__ (input_size hidden_size : nat) (rand : list A) : _Func :=
  mk_Func input_size hidden_size (mkTensor [1; 1; input_size] rand).

Definition forward (self : _Func) (t : A) (z : value A) : res (value A) :=
  match z with
  | VTensor zt =>
      if decide (shape zt ≠ [1; hidden_size self]) then Err AssertionError
      else
        let activated := mkTensor (shape zt) (map sigmoid (data zt)) in
        column ← unsqueeze activated (-1);
        out ← add column (variable self);
        if decide (shape out ≠ [1; hidden_size self; input_size self])
        then Err AssertionError
        else Ok (VTensor out)
  | _ => Err AttributeError
  end.

(** The module as the [func] argument of [cdeint]: it has no [prod]. *)
Definition as_func (self : _Func) : Func A := mkFunc (forward self) None.

End Func.
End TestTricks.

Module TestSample.

(** The vector field of the tests with three input and three hidden
    channels, and a path whose derivative has three channels. *)
Definition test_func : Func Z :=
  TestTricks.as_func Z.succ (TestTricks.__init__ 3 3 [10; 20; 30]%Z).

Definition X3 : Path Z :=
  mkPath (Some (fun t => Ok (VTensor (mkTensor [1; 3] [t; 1; 2]%Z)))) None [].

End TestSample.

(** ** Reading a trace *)

(** The buffers warned about, in order. *)
Fixpoint warnings_of {A} (tr : list (event A)) : list nat :=
  match tr with
  | [] => []
  | EvWarn b :: tr' => b :: warnings_of tr'
  | _ :: tr' => warnings_of tr'
  end.

(** How many times the integrator was called. *)
Fixpoint count_odeint {A} (tr : list (event A)) : nat :=
  match tr with
  | [] => 0
  | EvOdeint _ _ _ _ :: tr' => S (count_odeint tr')
  | _ :: tr' => count_odeint tr'
  end.

(** The events other than a call of [func] or [func.prod]. *)
Definition not_func_call {A} (ev : event A) : Prop :=
  match ev with
  | EvFunc _ _ | EvProd _ _ _ => False
  | _ => True
  end.

(** The events of the pre-flight check and of the right-hand side: the
    evaluations of [X] and [func], and [print]. *)
Definition evaluation_event {A} (ev : event A) : Prop :=
  match ev with
  | EvWarn _ | EvOdeint _ _ _ _ => False
  | _ => True
  end.

(** The identities of the buffers of [X] that require gradients, in the
    order of [X.buffers()]. *)
Definition differentiable_ids (bufs : list Buffer) : list nat :=
  map buf_id (List.filter requires_grad bufs).

(** The per-tensor check that [_check_compatability] applies: with the
    shortcut or without. *)
Definition per_tensor_check {A} `{Scalar A} (is_prod : bool)
    (control_gradient out z0 : Tensor A) : res unit :=
  if is_prod then _check_compatability_per_tensor_prod control_gradient out z0
  else _check_compatability_per_tensor_forward control_gradient out z0.

(** ** Lists in place of tuples *)





Module Integrators.



(** Two state components. *)
Definition z0s : list (value Z) := [VTensor Sample.z0; VTensor Sample.z0].

End Integrators.

(** ** Facts on row-major indexing *)

Lemma length_indices (s : list nat) : length (Idx.indices s) = Idx.numel s.
Proof.
  induction s as [|n s IH]; simpl; [reflexivity|].
  generalize 0 at 1. induction n as [|n IHn]; intros k; simpl; [reflexivity|].
  rewrite length_app, length_map, IH, IHn. reflexivity.
Qed.

Lemma offset_lt (s idx : list nat) :
  Idx.valid s idx -> Idx.offset s idx < Idx.numel s.
Proof.
  unfold Idx.valid. intros Hv. induction Hv as [|i n idx s Hi Hv IH]; simpl; [lia|].
  nia.
Qed.

Lemma nth_blocks {B} (blk : nat -> list B) (p : nat) (d : B) :
  (forall i, length (blk i) = p) ->
  forall n k i o, i < n -> o < p ->
    nth (i * p + o) (flat_map blk (seq k n)) d = nth o (blk (k + i)) d.
Proof.
  intros Hlen. induction n as [|n IH]; intros k i o Hi Ho; [lia|].
  simpl. destruct i as [|i].
  - rewrite Nat.add_0_r. simpl. rewrite app_nth1 by (rewrite Hlen; lia). reflexivity.
  - rewrite app_nth2 by (rewrite Hlen; simpl; lia).
    rewrite Hlen. replace (S i * p + o - p) with (i * p + o) by (simpl; lia).
    rewrite IH by lia. f_equal. f_equal. lia.
Qed.

Lemma nth_indices (s idx : list nat) (d : list nat) :
  Idx.valid s idx -> nth (Idx.offset s idx) (Idx.indices s) d = idx.
Proof.
  unfold Idx.valid. intros Hv. revert d.
  induction Hv as [|i n idx s Hi Hv IH]; intros d; simpl; [reflexivity|].
  rewrite (nth_blocks (fun i => map (cons i) (Idx.indices s)) (Idx.numel s)).
  - simpl. rewrite (nth_indep _ d (i :: d)).
    + rewrite (map_nth (cons i)). rewrite IH. reflexivity.
    + rewrite length_map, length_indices. apply offset_lt. exact Hv.
  - intros j. rewrite length_map. apply length_indices.
  - exact Hi.
  - apply offset_lt. exact Hv.
Qed.

Section TensorFacts.
Context {A : Type} `{Scalar A}.

Lemma wf_build (s : list nat) (g : list nat -> A) : wf (build s g).
Proof. unfold wf, build. simpl. rewrite length_map. apply length_indices. Qed.

Lemma get_build (s idx : list nat) (g : list nat -> A) :
  Idx.valid s idx -> get (build s g) idx = g idx.
Proof.
  intros Hv. unfold get, build. simpl.
  rewrite (nth_indep _ szero (g idx)).
  - rewrite (map_nth g). rewrite nth_indices by exact Hv. reflexivity.
  - rewrite length_map, length_indices. apply offset_lt. exact Hv.
Qed.

End TensorFacts.

(** ** The per-tensor compatibility checks *)

Section CheckFacts.
Context {A : Type} `{Scalar A}.

Lemma size_last (x : Tensor A) :
  1 <= ndim x -> size x (-1) = Ok (List.last (shape x) 0).
Proof.
  unfold size, ndim, wrap_dim. intros Hn.
  destruct (shape x) as [|n s] using rev_ind; [simpl in Hn; lia|].
  rewrite length_app in *. simpl in *.
  replace ((0 <=? -1)%Z) with false by reflexivity. simpl.
  destruct (Z.leb_spec (- Z.of_nat (length s + 1)) (-1)); [|lia]. simpl.
  rewrite last_last. f_equal.
  replace (Z.to_nat (-1 + Z.of_nat (length s + 1))) with (length s) by lia.
  rewrite app_nth2 by lia. rewrite Nat.sub_diag. reflexivity.
Qed.

Lemma size_second_to_last (x : Tensor A) :
  2 <= ndim x -> size x (-2) = Ok (nth (ndim x - 2) (shape x) 0).
Proof.
  unfold size, ndim, wrap_dim. intros Hn.
  replace ((0 <=? -2)%Z) with false by reflexivity. simpl.
  destruct (Z.leb_spec (- Z.of_nat (length (shape x))) (-2)); [|lia]. simpl.
  f_equal. f_equal. lia.
Qed.

Lemma per_tensor_base_spec (control_gradient z0 : Tensor A) :
  (_check_compatability_per_tensor_base control_gradient z0 = Ok tt <->
   upto_last 1 (shape control_gradient) = upto_last 1 (shape z0)) /\
  (forall e, _check_compatability_per_tensor_base control_gradient z0 = Err e ->
   is_shape_error e = true).
Proof.
  unfold _check_compatability_per_tensor_base.
  destruct (decide _) as [Hne|Heq]; split.
  - split; [discriminate|contradiction].
  - intros e [= <-]. reflexivity.
  - split; [intros _|reflexivity]. destruct (decide (upto_last 1 (shape control_gradient)
      = upto_last 1 (shape z0))); [assumption|contradiction].
  - discriminate.
Qed.

(** With the shortcut: the check passes exactly when the batch shapes agree
    and the shortcut's output has the shape of [z0]; it fails with a shape
    error only. *)
Lemma per_tensor_prod_spec (control_gradient vector_field z0 : Tensor A) :
  (_check_compatability_per_tensor_prod control_gradient vector_field z0 = Ok tt <->
   upto_last 1 (shape control_gradient) = upto_last 1 (shape z0) /\
   shape vector_field = shape z0) /\
  (forall e, _check_compatability_per_tensor_prod control_gradient vector_field z0 = Err e ->
   is_shape_error e = true).
Proof.
  unfold _check_compatability_per_tensor_prod.
  destruct (per_tensor_base_spec control_gradient z0) as [Hok Herr].
  destruct (_check_compatability_per_tensor_base control_gradient z0) as [[]|e0]; cbn.
  - destruct (decide (shape vector_field ≠ shape z0)) as [Hne|Heq]; split.
    + split; [discriminate|intros [_ ?]; contradiction].
    + intros e [= <-]. reflexivity.
    + split; [intros _|reflexivity]. split; [apply Hok; reflexivity|].
      destruct (decide (shape vector_field = shape z0)); [assumption|contradiction].
    + discriminate.
  - split.
    + split; [discriminate|]. intros [Hb _]. apply Hok in Hb. discriminate.
    + intros e [= <-]. apply Herr. reflexivity.
Qed.

(** Without the shortcut, on tensors that have the dimensions the checks
    read ([z0] and the control gradient a channel dimension, the system a
    hidden and an input dimension): the check passes exactly when the four
    comparisons hold, and fails with a shape error only. *)
Lemma per_tensor_forward_spec (control_gradient system z0 : Tensor A) :
  1 <= ndim z0 -> 1 <= ndim control_gradient -> 2 <= ndim system ->
  (_check_compatability_per_tensor_forward control_gradient system z0 = Ok tt <->
   upto_last 1 (shape control_gradient) = upto_last 1 (shape z0) /\
   upto_last 2 (shape system) = upto_last 1 (shape z0) /\
   nth (ndim system - 2) (shape system) 0 = List.last (shape z0) 0 /\
   List.last (shape system) 0 = List.last (shape control_gradient) 0) /\
  (forall e, _check_compatability_per_tensor_forward control_gradient system z0 = Err e ->
   is_shape_error e = true).
Proof.
  intros Hz Hc Hs. unfold _check_compatability_per_tensor_forward.
  destruct (per_tensor_base_spec control_gradient z0) as [Hok Herr].
  destruct (_check_compatability_per_tensor_base control_gradient z0) as [[]|e0]; cbn.
  2:{ split.
      - split; [discriminate|]. intros [Hb _]. apply Hok in Hb. discriminate.
      - intros e [= <-]. apply Herr. reflexivity. }
  assert (Hb : upto_last 1 (shape control_gradient) = upto_last 1 (shape z0))
    by (apply Hok; reflexivity).
  destruct (decide (upto_last 2 (shape system) ≠ upto_last 1 (shape z0))) as [Hne|Heq].
  { split; [split; [discriminate|intros (_ & ? & _); contradiction]|].
    intros e [= <-]. reflexivity. }
  assert (Hb2 : upto_last 2 (shape system) = upto_last 1 (shape z0))
    by (destruct (decide (upto_last 2 (shape system) = upto_last 1 (shape z0)));
        [assumption|contradiction]).
  rewrite (size_second_to_last system Hs), (size_last z0 Hz). cbn.
  destruct (decide (_ ≠ _)) as [Hne|Heq2].
  { split; [split; [discriminate|intros (_ & _ & ? & _); contradiction]|].
    intros e [= <-]. reflexivity. }
  assert (Hh : nth (ndim system - 2) (shape system) 0 = List.last (shape z0) 0)
    by (destruct (decide (nth (ndim system - 2) (shape system) 0 = List.last (shape z0) 0));
        [assumption|contradiction]).
  rewrite (size_last system ltac:(lia)), (size_last control_gradient Hc). cbn.
  destruct (decide (_ ≠ _)) as [Hne|Heq3].
  { split; [split; [discriminate|intros (_ & _ & _ & ?); contradiction]|].
    intros e [= <-]. reflexivity. }
  assert (Hi : List.last (shape system) 0 = List.last (shape control_gradient) 0)
    by (destruct (decide (List.last (shape system) 0 = List.last (shape control_gradient) 0));
        [assumption|contradiction]).
  split; [split; [intros _; repeat split; assumption|reflexivity]|discriminate].
Qed.

End CheckFacts.

(** C3: a vector field that returns a tensor with fewer than two
    dimensions for a state without batch dimensions passes both batch-shape
    comparisons, and the check then reads a dimension that does not exist:
    it ends with [IndexError], neither a shape error nor a pass, although
    the docstring of [cdeint] has [ValueError] for malformed inputs.
    [cdeint] raises the same [IndexError]. *)
Theorem check_forward_missing_dimension :
  _check_compatability_per_tensor_forward
    (mkTensor [2] [0; 1]%Z) (mkTensor [3] [4; 5; 6]%Z) Sample.z_flat
  = Err IndexError /\
  (cdeint Sample.odeint Sample.odeint Sample.X_flat Sample.func_flat
          (VTensor Sample.z_flat) [0; 9]%Z false "matmul" ∅).1
  = Err IndexError /\
  is_shape_error IndexError = false.
Proof. repeat split; vm_compute; reflexivity. Qed.

(** ** The adjoint-parameter warning *)

Section WarnFacts.
Context {A : Type} `{Scalar A}.

Lemma gen_contains_found (x : nat) (gen : list nat) :
  (gen_contains x gen).1 = true <-> x ∈ gen.
Proof.
  induction gen as [|y gen IH]; cbn.
  - split; [discriminate|]. intros Hin. inversion Hin.
  - destruct (Nat.eqb_spec y x) as [->|Hne]; cbn.
    + split; [intros _; left|reflexivity].
    + rewrite IH, elem_of_cons. split; [auto|]. intros [->|?]; [contradiction|assumption].
Qed.

Lemma gen_contains_rest (x y : nat) (gen : list nat) :
  y ∈ (gen_contains x gen).2 -> y ∈ gen.
Proof.
  induction gen as [|z gen IH]; cbn; [auto|].
  destruct (z =? x); cbn; intros Hin; right; auto.
Qed.

(** A differentiable buffer that is not declared is warned about. *)
Lemma warn_buffers_absent (bufs : list Buffer) (gen : list nat) (buffer : Buffer) :
  buffer ∈ bufs -> requires_grad buffer = true -> buf_id buffer ∉ gen ->
  EvWarn (A:=A) (buf_id buffer) ∈ warn_buffers bufs gen.
Proof.
  intros Hin Hrg. revert gen. induction bufs as [|b bufs IH]; intros gen Hgen.
  - inversion Hin.
  - cbn. apply elem_of_cons in Hin as [<-|Hin].
    + rewrite Hrg. pose proof (gen_contains_found (buf_id buffer) gen) as Hf.
      destruct (gen_contains _ _) as [[|] rest]; cbn in *.
      * exfalso. apply Hgen, Hf. reflexivity.
      * left.
    + destruct (requires_grad b); [|apply IH; assumption].
      pose proof (fun y => gen_contains_rest (buf_id b) y gen) as Hr.
      destruct (gen_contains _ _) as [found rest]; cbn in *.
      apply elem_of_app. right. apply IH; [assumption|]. intros Hc. apply Hgen, Hr, Hc.
Qed.

(** Only differentiable buffers of [X] are warned about. *)
Lemma warn_buffers_sound (bufs : list Buffer) (gen : list nat) (b : nat) :
  EvWarn (A:=A) b ∈ warn_buffers bufs gen ->
  exists buffer, buffer ∈ bufs /\ buf_id buffer = b /\ requires_grad buffer = true.
Proof.
  revert gen. induction bufs as [|b0 bufs IH]; intros gen; cbn.
  - intros Hin. inversion Hin.
  - destruct (requires_grad b0) eqn:Hrg.
    + destruct (gen_contains _ _) as [[|] rest]; cbn.
      * intros Hin. destruct (IH _ Hin) as (buffer & ? & ? & ?).
        exists buffer. split; [right|]; auto.
      * intros Hin. apply elem_of_cons in Hin as [[= ->]|Hin].
        -- exists b0. split; [left|]; auto.
        -- destruct (IH _ Hin) as (buffer & ? & ? & ?).
           exists buffer. split; [right|]; auto.
    + intros Hin. destruct (IH _ Hin) as (buffer & ? & ? & ?).
      exists buffer. split; [right|]; auto.
Qed.

End WarnFacts.

(** C5: with the buffers 1 and 2 of the control path differentiable and
    [adjoint_params] declaring 2 and then 1, looking up buffer 1 runs the
    generator past 2; the lookup of buffer 2 finds the generator exhausted
    and the warning is emitted for a declared buffer.  Integration goes on
    after the warning. *)
Theorem adjoint_warning_for_declared_buffer :
  let kwargs : gmap string kwval := {[ "adjoint_params" := KSeq [2; 1] ]} in
  let run := cdeint Sample.odeint Sample.odeint Sample.X Sample.func
               (VTensor Sample.z0) [0; 9]%Z true "matmul" kwargs in
  adjoint_params_ids kwargs = Ok [2; 1] /\
  map buf_id (filter (fun b => requires_grad b = true) (buffers Sample.X)) = [1; 2] /\
  warn_buffers (A:=Z) (buffers Sample.X) [2; 1] = [EvWarn 2] /\
  EvWarn 2 ∈ run.2 /\
  (exists out, run.1 = Ok out).
Proof.
  cbn zeta. split; [reflexivity|]. split; [reflexivity|]. split; [reflexivity|].
  split.
  - vm_compute. right. right. left.
  - eexists. vm_compute. reflexivity.
Qed.

(** ** The adapter *)

Lemma upto_last_app (k : nat) (l tail : list nat) :
  length tail = k -> upto_last k (l ++ tail) = l.
Proof.
  intros <-. unfold upto_last. rewrite length_app.
  replace (length l + length tail - length tail) with (length l) by lia.
  apply take_app_length.
Qed.

Lemma valid_app (s1 s2 i1 i2 : list nat) :
  Idx.valid s1 i1 -> Idx.valid s2 i2 -> Idx.valid (s1 ++ s2) (i1 ++ i2).
Proof. unfold Idx.valid. apply Forall2_app. Qed.

Lemma valid_length (s idx : list nat) : Idx.valid s idx -> length idx = length s.
Proof. unfold Idx.valid. apply Forall2_length. Qed.

Lemma valid_singleton (n j : nat) : j < n -> Idx.valid [n] [j].
Proof. intros Hj. repeat constructor. exact Hj. Qed.

Lemma numel_app (s1 s2 : list nat) :
  Idx.numel (s1 ++ s2) = Idx.numel s1 * Idx.numel s2.
Proof. induction s1 as [|n s1 IH]; simpl; [lia|]. rewrite IH. lia. Qed.

(** A trailing dimension of size one does not move the entries. *)
Lemma offset_snoc_one (s idx : list nat) :
  length idx = length s -> Idx.offset (s ++ [1]) (idx ++ [0]) = Idx.offset s idx.
Proof.
  revert idx. induction s as [|n s IH]; intros [|i idx] Hlen; try discriminate.
  - reflexivity.
  - simpl in *. rewrite IH by lia. rewrite numel_app. simpl. lia.
Qed.

Lemma map_flat_map_comm {B C D} (f : C -> D) (g : B -> list C) (l : list B) :
  map f (flat_map g l) = flat_map (fun x => map f (g x)) l.
Proof.
  induction l as [|x l IH]; simpl; [reflexivity|]. rewrite map_app, IH. reflexivity.
Qed.

Lemma indices_snoc_one (s : list nat) :
  Idx.indices (s ++ [1]) = map (fun idx => idx ++ [0]) (Idx.indices s).
Proof.
  induction s as [|n s IH]; [reflexivity|].
  simpl. rewrite IH, map_flat_map_comm. apply flat_map_ext. intros i.
  rewrite !map_map. reflexivity.
Qed.

Lemma indices_valid (s idx : list nat) : In idx (Idx.indices s) -> Idx.valid s idx.
Proof.
  revert idx. induction s as [|n s IH]; intros idx; simpl.
  - intros [<-|[]]. constructor.
  - rewrite in_flat_map. intros (i & Hi & Hin).
    apply in_map_iff in Hin as (idx' & <- & Hin').
    apply in_seq in Hi. constructor; [lia|]. apply IH. exact Hin'.
Qed.

Lemma valid_snoc_inv (s idx : list nat) (n : nat) :
  Idx.valid (s ++ [n]) idx ->
  exists bi r, idx = bi ++ [r] /\ Idx.valid s bi /\ r < n.
Proof.
  unfold Idx.valid. intros Hv. apply Forall2_app_inv_r in Hv as (bi & tl & Hbi & Htl & ->).
  inversion Htl as [|r n' tl' s' Hr Hnil]; subst. inversion Hnil; subst.
  exists bi, r. auto.
Qed.

Lemma broadcast_dim_same (n : nat) : broadcast_dim n n = Some n.
Proof. unfold broadcast_dim. rewrite Nat.eqb_refl. reflexivity. Qed.

Lemma broadcast_rev_same (s : list nat) : broadcast_rev s s = Some s.
Proof.
  induction s as [|n s IH]; [reflexivity|].
  simpl. rewrite broadcast_dim_same, IH. reflexivity.
Qed.

Lemma broadcast_shapes_same (s : list nat) : broadcast_shapes s s = Some s.
Proof.
  unfold broadcast_shapes. rewrite broadcast_rev_same. simpl.
  rewrite rev_involutive. reflexivity.
Qed.

(** Between equal batch shapes broadcasting reads the same index. *)
Lemma bcast_idx_same (s idx : list nat) : Idx.valid s idx -> bcast_idx s idx = idx.
Proof.
  intros Hv. unfold bcast_idx. rewrite (valid_length s idx Hv), Nat.sub_diag.
  change (drop 0 idx) with idx.
  unfold Idx.valid in Hv. induction Hv as [|i n idx s Hi Hv IH]; [reflexivity|].
  cbn [zip_with]. rewrite IH. destruct (Nat.eqb_spec n 1) as [->|_]; [|reflexivity].
  f_equal. lia.
Qed.

Section AdapterFacts.
Context {A : Type} `{Scalar A}.

(** [torch.cat([a, b], -1)] on tensors with the same batch shape: the
    channels of [a] followed by those of [b]. *)
Lemma cat_last_spec (a b : Tensor A) (batch : list nat) (ha hb : nat) :
  shape a = batch ++ [ha] -> shape b = batch ++ [hb] ->
  exists c,
    cat_last a b = Ok c /\
    shape c = batch ++ [ha + hb] /\
    (forall bi j, Idx.valid batch bi -> j < ha + hb ->
       get c (bi ++ [j]) = if j <? ha then get a (bi ++ [j]) else get b (bi ++ [j - ha])).
Proof.
  intros Ha Hb. unfold cat_last.
  assert (Hna : (ndim a =? 0) = false).
  { apply Nat.eqb_neq. unfold ndim. rewrite Ha, length_app. cbn. lia. }
  assert (Hnb : (ndim b =? 0) = false).
  { apply Nat.eqb_neq. unfold ndim. rewrite Hb, length_app. cbn. lia. }
  rewrite Hna, Hnb. cbn [orb].
  destruct (decide (shape a = [0])) as [Ha0|Ha0].
  { rewrite Ha in Ha0. destruct batch as [|n batch]; cbn in Ha0.
    - injection Ha0 as ->. exists b. split; [reflexivity|]. split; [exact Hb|].
      intros bi j Hbi Hj. inversion Hbi; subst. cbn. rewrite Nat.sub_0_r. reflexivity.
    - injection Ha0 as _ Hnil. destruct batch; discriminate. }
  destruct (decide (shape b = [0])) as [Hb0|Hb0].
  { rewrite Hb in Hb0. destruct batch as [|n batch]; cbn in Hb0.
    - injection Hb0 as ->. exists a. split; [reflexivity|].
      split; [rewrite Ha, Nat.add_0_r; reflexivity|].
      intros bi j Hbi Hj. destruct (Nat.ltb_spec j ha); [reflexivity|lia].
    - injection Hb0 as _ Hnil. destruct batch; discriminate. }
  unfold ndim. rewrite Ha, Hb, !length_app. cbn [length].
  rewrite !(upto_last_app 1) by reflexivity. rewrite !last_last.
  destruct (decide _) as [_|Hn]; [|exfalso; apply Hn; split; reflexivity].
  eexists. split; [reflexivity|]. split; [reflexivity|].
  intros bi j Hbi Hj. rewrite get_build.
  - rewrite (upto_last_app 1) by reflexivity. rewrite last_last. reflexivity.
  - apply valid_app; [exact Hbi|apply valid_singleton; exact Hj].
Qed.

Lemma wrap_dim_last (n : nat) : 1 <= n -> wrap_dim n (-1) = Some (n - 1).
Proof.
  intros Hn. unfold wrap_dim.
  replace ((0 <=? -1)%Z) with false by reflexivity. cbn [andb].
  destruct (Z.leb_spec (- Z.of_nat n) (-1)); [|lia].
  replace ((-1 <? 0)%Z) with true by reflexivity. cbn [andb].
  f_equal. lia.
Qed.

Lemma unsqueeze_last (x : Tensor A) :
  unsqueeze x (-1) = Ok (mkTensor (shape x ++ [1]) (data x)).
Proof.
  unfold unsqueeze. rewrite (wrap_dim_last (S (ndim x))) by lia.
  unfold ndim. replace (S (length (shape x)) - 1) with (length (shape x)) by lia.
  rewrite firstn_all, skipn_all. reflexivity.
Qed.

Lemma squeeze_last_one (s : list nat) (d : list A) :
  squeeze (mkTensor (s ++ [1]) d) (-1) = Ok (mkTensor s d).
Proof.
  unfold squeeze, ndim. cbn [shape data]. rewrite length_app. cbn [length].
  rewrite wrap_dim_last by lia.
  replace (Nat.max (length s + 1) 1 - 1) with (length s) by lia.
  destruct (Nat.ltb_spec (length s) (length s + 1)); [|lia].
  rewrite app_nth2 by lia. rewrite Nat.sub_diag. cbn [nth Nat.eqb andb].
  rewrite take_app_length.
  rewrite skipn_all2 by (rewrite length_app; simpl; lia).
  rewrite app_nil_r. reflexivity.
Qed.

Lemma dot_ext (k : nat) (f f' g g' : nat -> A) :
  (forall l, f l = f' l) -> (forall l, g l = g' l) -> dot k f g = dot k f' g'.
Proof.
  intros Hf Hg. unfold dot. generalize (szero (A:=A)). generalize (seq 0 k).
  intros ls. induction ls as [|l ls IH]; intros acc; [reflexivity|].
  simpl. rewrite Hf, Hg. apply IH.
Qed.

(** The matrix product of the code is the contraction of the
    specification. *)
Lemma matvec_spec (vf cg : Tensor A) (batch : list nat) (h i : nat) :
  shape vf = batch ++ [h; i] -> shape cg = batch ++ [i] ->
  matvec (VTensor vf) (VTensor cg) = Ok (VTensor (contract vf cg)).
Proof.
  intros Hvf Hcg. unfold matvec. rewrite unsqueeze_last. cbn [mbind res_bind].
  unfold matmul, ndim. cbn [shape data]. rewrite Hvf, Hcg.
  rewrite !length_app. cbn [length].
  replace (length batch + 2 =? 0) with false by (symmetry; apply Nat.eqb_neq; lia).
  replace (length batch + 1 + 1 =? 0) with false by (symmetry; apply Nat.eqb_neq; lia).
  replace (length batch + 2 =? 1) with false by (symmetry; apply Nat.eqb_neq; lia).
  replace (length batch + 1 + 1 =? 1) with false by (symmetry; apply Nat.eqb_neq; lia).
  cbn [orb]. rewrite <- !app_assoc. cbn [app].
  rewrite !(upto_last_app 2) by reflexivity.
  rewrite !length_app. cbn [length].
  replace (length batch + 2 - 2) with (length batch) by lia.
  replace (length batch + 2 - 1) with (S (length batch)) by lia.
  rewrite !app_nth2 by lia.
  replace (S (length batch) - length batch) with 1 by lia.
  rewrite Nat.sub_diag. cbn [nth].
  rewrite Nat.eqb_refl, broadcast_shapes_same.
  cbn [mbind res_bind].
  replace (batch ++ [h; 1]) with ((batch ++ [h]) ++ [1]) by (rewrite <- app_assoc; reflexivity).
  rewrite squeeze_last_one. cbn [mbind res_bind].
  unfold contract, build. cbn [data]. rewrite Hvf.
  replace (batch ++ [h; i]) with ((batch ++ [h]) ++ [i]) by (rewrite <- app_assoc; reflexivity).
  rewrite (upto_last_app 1) by reflexivity. rewrite last_last.
  do 3 f_equal. rewrite indices_snoc_one, map_map.
  apply map_ext_in. intros idx Hin.
  apply indices_valid, valid_snoc_inv in Hin as (bi & r & -> & Hbi & Hr).
  pose proof (valid_length _ _ Hbi) as Hlen.
  rewrite <- !app_assoc. cbn [app].
  rewrite <- Hlen, take_app_length.
  rewrite !app_nth2 by lia. rewrite Nat.sub_diag.
  replace (S (length bi) - length bi) with 1 by lia. cbn [nth].
  rewrite bcast_idx_same by exact Hbi.
  apply dot_ext; intros l.
  - unfold get. cbn [shape data]. rewrite Hvf, <- app_assoc. reflexivity.
  - rewrite (upto_last_app 1) by reflexivity.
    unfold get. cbn [shape data]. rewrite Hcg.
    replace (batch ++ [i; 1]) with ((batch ++ [i]) ++ [1]) by (rewrite <- app_assoc; reflexivity).
    replace (bi ++ [l; 0]) with ((bi ++ [l]) ++ [0]) by (rewrite <- app_assoc; reflexivity).
    rewrite offset_snoc_one by (rewrite !length_app; simpl; lia).
    reflexivity.
Qed.

Lemma contract_spec (vf cg : Tensor A) (batch : list nat) (h i : nat) :
  shape vf = batch ++ [h; i] ->
  shape (contract vf cg) = batch ++ [h] /\
  wf (contract vf cg) /\
  (forall bi r, Idx.valid batch bi -> r < h ->
     get (contract vf cg) (bi ++ [r])
     = dot i (fun l => get vf (bi ++ [r; l])) (fun l => get cg (bi ++ [l]))).
Proof.
  intros Hvf. unfold contract. rewrite Hvf.
  replace (batch ++ [h; i]) with ((batch ++ [h]) ++ [i]) by (rewrite <- app_assoc; reflexivity).
  rewrite (upto_last_app 1) by reflexivity. rewrite last_last.
  split; [reflexivity|]. split; [apply wf_build|].
  intros bi r Hbi Hr. rewrite get_build.
  - rewrite (upto_last_app 1) by reflexivity.
    apply dot_ext; intros l; [rewrite <- app_assoc|]; reflexivity.
  - apply valid_app; [exact Hbi|apply valid_singleton; exact Hr].
Qed.

Lemma matvec_each_spec (vfs cgs : list (Tensor A)) :
  Forall2 contractible vfs cgs ->
  matvec_each (map VTensor vfs) (map VTensor cgs)
  = Ok (map VTensor (zip_with contract vfs cgs)).
Proof.
  induction 1 as [|vf cg vfs cgs (batch & h & i & Hvf & Hcg) _ IH]; [reflexivity|].
  cbn [map matvec_each zip_with]. rewrite (matvec_spec vf cg batch h i Hvf Hcg).
  cbn [mbind res_bind]. rewrite IH. reflexivity.
Qed.

(** C1: in "matmul" mode the right-hand side on a tensor state is the
    contraction of [func(t, z)] (shape [batch ++ [hidden; input]]) with
    [X.derivative(t)] (shape [batch ++ [input]]) over the input dimension,
    of shape [batch ++ [hidden]]; with the shortcut it is
    [func.prod(t, z, X.derivative(t))] and [func] is not called; in tuple
    mode it is the tuple of the contractions of the paired elements, as
    long as the elements of the vector field. *)
Theorem forward_matmul (X : Path A) (func : Func A)
    (X_derivative : A -> res (value A)) (t : A) (z control_gradient : value A) :
  derivative X = Some X_derivative ->
  X_derivative t = Ok control_gradient ->
  (forall vf cg batch h i,
     control_gradient = VTensor cg ->
     call func t z = Ok (VTensor vf) ->
     shape vf = batch ++ [h; i] -> shape cg = batch ++ [i] ->
     forward (mk_VectorField X func true false "matmul") t z
     = (Ok (VTensor (contract vf cg)), [EvDerivative t; EvFunc t z]) /\
     shape (contract vf cg) = batch ++ [h] /\
     (forall bi r, Idx.valid batch bi -> r < h ->
        get (contract vf cg) (bi ++ [r])
        = dot i (fun l => get vf (bi ++ [r; l])) (fun l => get cg (bi ++ [l])))) /\
  (forall is_tensor func_prod,
     prod func = Some func_prod ->
     forward (mk_VectorField X func is_tensor true "matmul") t z
     = (func_prod t z control_gradient, [EvDerivative t; EvProd t z control_gradient])) /\
  (forall vector_field vfs cgs,
     call func t z = Ok vector_field ->
     iter_value vector_field = Ok (map VTensor vfs) ->
     iter_value control_gradient = Ok (map VTensor cgs) ->
     Forall2 contractible vfs cgs ->
     forward (mk_VectorField X func false false "matmul") t z
     = (Ok (VTuple (map VTensor (zip_with contract vfs cgs))), [EvDerivative t; EvFunc t z]) /\
     length (zip_with contract vfs cgs) = length vfs).
Proof.
  intros Hd Hdt.
  assert (Hmode : forall is_tensor,
    forward (mk_VectorField X func is_tensor false "matmul") t z
    = (_ ← emit (EvDerivative t); cgv ← lift (X_derivative t);
       _ ← emit (EvFunc t z); vector_field ← lift (call func t z);
       if is_tensor then lift (matvec vector_field cgv)
       else lift (vfs ← iter_value vector_field; cgs ← iter_value cgv;
                  outs ← matvec_each vfs cgs; Ok (VTuple outs)))).
  { intros it. unfold forward. cbn [vf_X vf_func is_prod is_tensor method]. rewrite Hd.
    destruct (decide ("matmul" ∈ ["evaluate"; "derivative"])) as [Hin|_]; [|reflexivity].
    exfalso. apply elem_of_cons in Hin as [Hin|Hin]; [discriminate|].
    apply elem_of_cons in Hin as [Hin|Hin]; [discriminate|inversion Hin]. }
  split; [|split].
  - intros vf cg batch h i -> Hcall Hvf Hcg.
    destruct (contract_spec vf cg batch h i Hvf) as (Hshape & _ & Hget).
    split; [|split; assumption].
    rewrite Hmode, Hdt, Hcall. cbn -[matvec].
    rewrite (matvec_spec vf cg batch h i Hvf Hcg). reflexivity.
  - intros it func_prod Hprod. unfold forward. cbn [vf_X vf_func is_prod method].
    rewrite Hd, Hprod.
    destruct (decide ("matmul" ≠ "matmul")) as [Hn|_]; [contradiction|].
    cbn. rewrite Hdt. cbn. destruct (func_prod t z control_gradient); reflexivity.
  - intros vector_field vfs cgs Hcall Hvfs Hcgs Hall. split.
    + rewrite Hmode, Hdt, Hcall. cbn -[matvec_each iter_value].
      rewrite Hvfs. cbn -[matvec_each iter_value]. rewrite Hcgs.
      cbn -[matvec_each]. rewrite (matvec_each_spec vfs cgs Hall).
      reflexivity.
    + rewrite length_zip_with. apply Forall2_length in Hall. lia.
Qed.

(** C8: without the shortcut, the right-hand side in "evaluate" mode is
    [func(t, cat([z, X.evaluate(t)], -1))] and in "derivative" mode
    [func(t, cat([z, X.derivative(t)], -1))], for every state [z]; and for
    a tensor state of shape [batch ++ [hz]] and path data of shape
    [batch ++ [hx]] the concatenated tensor has shape [batch ++ [hz + hx]],
    the channels of [z] followed by those of the path data. *)
Theorem forward_concatenates (X : Path A) (func : Func A) (is_tensor : bool)
    (X_derivative : A -> res (value A)) (t : A) (z cg : value A) :
  derivative X = Some X_derivative ->
  X_derivative t = Ok cg ->
  (forall X_evaluate,
     evaluate X = Some X_evaluate ->
     (forward (mk_VectorField X func is_tensor false "evaluate") t z).1
     = (data ← X_evaluate t; func_inputs ← torch_cat z data; call func t func_inputs)) /\
  (forward (mk_VectorField X func is_tensor false "derivative") t z).1
  = (func_inputs ← torch_cat z cg; call func t func_inputs) /\
  (forall zt xt batch hz hx,
     z = VTensor zt -> shape zt = batch ++ [hz] -> shape xt = batch ++ [hx] ->
     exists c,
       torch_cat z (VTensor xt) = Ok (VTensor c) /\
       shape c = batch ++ [hz + hx] /\
       (forall bi j, Idx.valid batch bi -> j < hz + hx ->
          get c (bi ++ [j])
          = if j <? hz then get zt (bi ++ [j]) else get xt (bi ++ [j - hz])) /\
       (forall X_evaluate,
          evaluate X = Some X_evaluate -> X_evaluate t = Ok (VTensor xt) ->
          forward (mk_VectorField X func is_tensor false "evaluate") t z
          = (call func t (VTensor c),
             [EvDerivative t; EvEvaluate t; EvPrint (VTensor c); EvFunc t (VTensor c)])) /\
       (cg = VTensor xt ->
          forward (mk_VectorField X func is_tensor false "derivative") t z
          = (call func t (VTensor c),
             [EvDerivative t; EvDerivative t; EvPrint (VTensor c); EvFunc t (VTensor c)]))).
Proof.
  intros Hd Hdt.
  assert (Hev_mode : forall X_evaluate, evaluate X = Some X_evaluate ->
    forward (mk_VectorField X func is_tensor false "evaluate") t z
    = (_ ← emit (EvDerivative t); _ ← lift (X_derivative t); _ ← emit (EvEvaluate t);
       data ← lift (X_evaluate t); func_inputs ← lift (torch_cat z data);
       _ ← emit (EvPrint func_inputs); _ ← emit (EvFunc t func_inputs);
       lift (call func t func_inputs))).
  { intros ev Hev. unfold forward. cbn [vf_X vf_func is_prod method].
    rewrite Hd, Hev.
    destruct (decide ("evaluate" ∈ ["evaluate"; "derivative"])) as [_|Hn];
      [|exfalso; apply Hn; left].
    destruct (decide ("evaluate" = "evaluate")) as [_|Hn]; [|contradiction].
    reflexivity. }
  assert (Hde_mode :
    forward (mk_VectorField X func is_tensor false "derivative") t z
    = (_ ← emit (EvDerivative t); _ ← lift (X_derivative t); _ ← emit (EvDerivative t);
       data ← lift (X_derivative t); func_inputs ← lift (torch_cat z data);
       _ ← emit (EvPrint func_inputs); _ ← emit (EvFunc t func_inputs);
       lift (call func t func_inputs))).
  { unfold forward. cbn [vf_X vf_func is_prod method].
    rewrite Hd.
    destruct (decide ("derivative" ∈ ["evaluate"; "derivative"])) as [_|Hn];
      [|exfalso; apply Hn; right; left].
    destruct (decide ("derivative" = "evaluate")) as [Hn|_]; [discriminate|].
    reflexivity. }
  split; [|split].
  - intros ev Hev. rewrite (Hev_mode ev Hev). cbn. rewrite Hdt. cbn.
    destruct (ev t) as [data|e]; cbn; [|reflexivity].
    destruct (torch_cat z data) as [fi|e]; cbn; [|reflexivity].
    destruct (call func t fi); reflexivity.
  - rewrite Hde_mode. cbn. rewrite Hdt. cbn.
    destruct (torch_cat z cg) as [fi|e]; cbn; [|reflexivity].
    destruct (call func t fi); reflexivity.
  - intros zt xt batch hz hx -> Hz Hx.
    destruct (cat_last_spec zt xt batch hz hx Hz Hx) as (c & Hcat & Hshape & Hget).
    exists c. cbn. rewrite Hcat. cbn.
    split; [reflexivity|]. split; [exact Hshape|]. split; [exact Hget|]. split.
    + intros ev Hev Hevt. rewrite (Hev_mode ev Hev). cbn. rewrite Hdt. cbn.
      rewrite Hevt. cbn. rewrite Hcat. cbn.
      destruct (call func t (VTensor c)); reflexivity.
    + intros ->. rewrite Hde_mode. cbn. rewrite Hdt. cbn. rewrite Hcat. cbn.
      destruct (call func t (VTensor c)); reflexivity.
Qed.

End AdapterFacts.

(** ** The public layout *)

Lemma index_of_app_absent (q : nat) (l r : list nat) :
  ~ In q l -> index_of q (l ++ r) = length l + index_of q r.
Proof.
  induction l as [|p l IH]; intros Hq; [reflexivity|].
  simpl. destruct (Nat.eqb_spec p q) as [->|_].
  - exfalso. apply Hq. left. reflexivity.
  - rewrite IH; [reflexivity|]. intros Hin. apply Hq. right. exact Hin.
Qed.

Lemma index_of_seq (q a k : nat) (r : list nat) :
  a <= q < a + k -> index_of q (seq a k ++ r) = q - a.
Proof.
  revert a. induction k as [|k IH]; intros a Hq; [lia|].
  simpl. destruct (Nat.eqb_spec a q) as [->|Hne]; [lia|].
  rewrite IH by lia. lia.
Qed.

Lemma map_nth_seq {B} (l r : list B) (d : B) :
  map (fun p => nth p (l ++ r) d) (seq 0 (length l)) = l.
Proof.
  induction l as [|x l IH]; [reflexivity|].
  simpl. f_equal. rewrite <- seq_shift, map_map. exact IH.
Qed.

Lemma distinct_NoDup (ps : list nat) : List.NoDup ps -> distinct ps = true.
Proof.
  induction 1 as [|p ps Hp _ IH]; [reflexivity|].
  simpl. rewrite IH, andb_true_r. apply negb_true_iff.
  destruct (existsb (Nat.eqb p) ps) eqn:He; [|reflexivity].
  apply existsb_exists in He as (x & Hx & Heq). apply Nat.eqb_eq in Heq as ->.
  contradiction.
Qed.

(** The dimensions [1, ..., k, 0, k+1] that [cdeint] passes to [permute]. *)
Lemma layout_dims_distinct (k : nat) : distinct (seq 1 k ++ [0; S k]) = true.
Proof.
  apply distinct_NoDup. apply List.NoDup_app.
  - apply List.seq_NoDup.
  - constructor; [|constructor; [intros []|constructor]].
    intros [Heq|[]]. discriminate.
  - intros x Hx [<-|[<-|[]]]; apply in_seq in Hx; lia.
Qed.

Lemma layout_dims_wrap (k : nat) :
  mapM (wrap_dim (k + 2)) (map Z.of_nat (seq 1 k) ++ [0; -1]%Z)
  = Some (seq 1 k ++ [0; S k]).
Proof.
  apply mapM_Some. apply Forall2_app.
  - apply Forall2_fmap_l, Forall_Forall2_diag, Forall_forall.
    intros x Hx. apply elem_of_seq in Hx. unfold compose, wrap_dim. cbn beta.
    destruct (Z.leb_spec 0 (Z.of_nat x)); [|lia].
    destruct (Z.ltb_spec (Z.of_nat x) (Z.of_nat (k + 2))); [|lia].
    cbn [andb]. f_equal. lia.
  - constructor; [|constructor; [|constructor]].
    + unfold wrap_dim. cbn [Z.leb Z.compare andb].
      destruct (Z.ltb_spec 0 (Z.of_nat (k + 2))); [reflexivity|lia].
    + rewrite wrap_dim_last by lia. f_equal. lia.
Qed.

Section LayoutFacts.
Context {A : Type} `{Scalar A}.

Lemma to_path_layout_spec (T : nat) (z raw : Tensor A) :
  sequence_first T z raw ->
  exists out, to_path_layout (VTensor raw) = Ok (VTensor out) /\ path_layout T z raw out.
Proof.
  intros [(batch & hidden & Hz) Hraw]. rewrite Hz in Hraw.
  unfold to_path_layout, permute, ndim. rewrite Hraw.
  assert (Hn : length (T :: batch ++ [hidden]) = length batch + 2)
    by (cbn [length]; rewrite length_app; cbn [length]; lia).
  rewrite Hn. replace (length batch + 2 - 1 - 1) with (length batch) by lia.
  rewrite length_app, length_map, length_seq. cbn [length]. rewrite Nat.eqb_refl.
  rewrite layout_dims_wrap, layout_dims_distinct. cbn [mbind res_bind].
  eexists. split; [reflexivity|].
  exists batch, hidden. split; [exact Hz|].
  assert (Hshape : map (fun p => nth p (T :: batch ++ [hidden]) 0) (seq 1 (length batch) ++ [0; S (length batch)])
                   = batch ++ [T; hidden]).
  { rewrite map_app. f_equal.
    - rewrite <- seq_shift, map_map. cbn [nth]. apply map_nth_seq.
    - cbn [map nth]. rewrite app_nth2 by lia. rewrite Nat.sub_diag. reflexivity. }
  split; [exact Hshape|]. split; [apply wf_build|].
  intros bi s c Hbi Hs Hc. cbn [shape]. rewrite Hshape. rewrite get_build.
  2:{ apply valid_app; [exact Hbi|]. repeat constructor; assumption. }
  f_equal. pose proof (valid_length _ _ Hbi) as Hlen.
  set (ps := seq 1 (length batch) ++ [0; S (length batch)]).
  assert (H0 : index_of 0 ps = length batch).
  { unfold ps. rewrite index_of_app_absent by (rewrite in_seq; lia).
    rewrite length_seq. cbn. lia. }
  assert (Hq : forall q, 1 <= q <= length batch -> index_of q ps = q - 1).
  { intros q Hq. unfold ps. apply index_of_seq. lia. }
  assert (Hk : index_of (S (length batch)) ps = S (length batch)).
  { unfold ps. rewrite index_of_app_absent by (rewrite in_seq; lia).
    rewrite length_seq. cbn [index_of]. rewrite Nat.eqb_refl.
    destruct (Nat.eqb_spec 0 (S (length batch))); lia. }
  replace (seq 0 (length batch + 2))
    with ([0] ++ seq 1 (length batch) ++ [S (length batch)]).
  2:{ replace (length batch + 2) with (1 + (length batch + 1)) by lia.
      rewrite (seq_app 1), (seq_app (length batch)). reflexivity. }
  rewrite !map_app. cbn [map app]. rewrite H0, Hk. f_equal.
  - rewrite app_nth2 by lia. rewrite Hlen, Nat.sub_diag. reflexivity.
  - f_equal.
    + transitivity (map (fun q => nth (q - 1) (bi ++ [s; c]) 0) (seq 1 (length batch))).
      * apply map_ext_in. intros q Hin. apply in_seq in Hin. rewrite Hq by lia. reflexivity.
      * rewrite <- seq_shift, map_map. rewrite <- Hlen.
        rewrite <- (map_nth_seq bi [s; c] 0) at 2.
        apply map_ext. intros q. f_equal. lia.
    + rewrite app_nth2 by lia. rewrite Hlen.
      replace (S (length batch) - length batch) with 1 by lia. reflexivity.
Qed.


(** What [to_path_layout_each] returns is one permuted tensor per item. *)
Lemma to_path_layout_each_inv (raws outs : list (value A)) :
  to_path_layout_each raws = Ok outs ->
  Forall2 (fun raw out => to_path_layout raw = Ok out /\ is_tensor_value out) raws outs.
Proof.
  revert outs. induction raws as [|raw raws IH]; intros outs; cbn [to_path_layout_each].
  - intros [= <-]. constructor.
  - destruct (to_path_layout raw) as [p|e] eqn:Hp; cbn [mbind res_bind]; [|discriminate].
    destruct (to_path_layout_each raws) as [ps|e]; cbn [mbind res_bind]; [|discriminate].
    intros [= <-]. constructor; [|apply IH; reflexivity].
    split; [exact Hp|]. unfold to_path_layout in Hp.
    destruct raw as [o| | |]; try discriminate.
    destruct (permute o _); cbn in Hp; [|discriminate].
    injection Hp as <-. exact I.
Qed.

(** The structural mode the check reports is that of [z0]. *)
Lemma check_structure_is_tensor (is_prod b : bool) (cg out z0 : value A) :
  check_structure is_prod cg out z0 = Ok b ->
  b = match z0 with VTensor _ => true | _ => false end.
Proof.
  unfold check_structure. destruct z0 as [z|z0s|z0s|].
  - destruct cg as [c| | |]; try discriminate.
    destruct is_prod; destruct out as [o| | |]; try discriminate.
    + destruct (_check_compatability_per_tensor_prod c o z); cbn; [|discriminate].
      intros [= <-]. reflexivity.
    + destruct (_check_compatability_per_tensor_forward c o z); cbn; [|discriminate].
      intros [= <-]. reflexivity.
  - destruct (seq_items cg) as [cgs|]; [|discriminate].
    destruct (decide _); [discriminate|].
    destruct is_prod; (destruct (seq_items out) as [outs|]; [|discriminate]);
      (destruct (decide _); [discriminate|]).
    + destruct (check_elements_prod cgs outs z0s); cbn; [|discriminate].
      intros [= <-]. reflexivity.
    + destruct (check_elements_forward cgs outs z0s); cbn; [|discriminate].
      intros [= <-]. reflexivity.
  - destruct (seq_items cg) as [cgs|]; [|discriminate].
    destruct (decide _); [discriminate|].
    destruct is_prod; (destruct (seq_items out) as [outs|]; [|discriminate]);
      (destruct (decide _); [discriminate|]).
    + destruct (check_elements_prod cgs outs z0s); cbn; [|discriminate].
      intros [= <-]. reflexivity.
    + destruct (check_elements_forward cgs outs z0s); cbn; [|discriminate].
      intros [= <-]. reflexivity.
  - discriminate.
Qed.

Lemma check_compatability_is_tensor (X : Path A) (func : Func A) (z0 : value A)
    (t : list A) (is_tensor is_prod : bool) (tr : list (event A)) :
  _check_compatability X func z0 t = (Ok (is_tensor, is_prod), tr) ->
  is_tensor = match z0 with VTensor _ => true | _ => false end.
Proof.
  unfold _check_compatability.
  destruct (derivative X) as [d|]; [|discriminate].
  destruct t as [|t0 t']; [discriminate|]. cbn.
  destruct (d t0) as [cg|e]; cbn; [|discriminate].
  destruct (prod func) as [p|]; cbn.
  - destruct (p t0 z0 cg) as [vf|e]; cbn; [|discriminate].
    destruct (check_structure true cg vf z0) as [b|e] eqn:Hc; cbn; [|discriminate].
    intros [= <- _ _]. eapply check_structure_is_tensor. exact Hc.
  - destruct (call func t0 z0) as [sys|e]; cbn; [|discriminate].
    destruct (check_structure false cg sys z0) as [b|e] eqn:Hc; cbn; [|discriminate].
    intros [= <- _ _]. eapply check_structure_is_tensor. exact Hc.
Qed.

(** Matching shapes pass the check: a state of shape [batch ++ [hidden]],
    a control gradient of shape [batch ++ [input]] and a system of shape
    [batch ++ [hidden; input]]. *)
Lemma check_compatability_well_formed (X : Path A) (func : Func A)
    (X_derivative : A -> res (value A)) (z cg sys : Tensor A) (t0 : A) (t' : list A)
    (batch : list nat) (hidden input : nat) :
  derivative X = Some X_derivative -> X_derivative t0 = Ok (VTensor cg) ->
  prod func = None -> call func t0 (VTensor z) = Ok (VTensor sys) ->
  shape z = batch ++ [hidden] -> shape cg = batch ++ [input] ->
  shape sys = batch ++ [hidden; input] ->
  _check_compatability X func (VTensor z) (t0 :: t')
  = (Ok (true, false), [EvDerivative t0; EvFunc t0 (VTensor z)]).
Proof.
  intros Hd Hdt Hprod Hcall Hz Hcg Hsys.
  unfold _check_compatability. rewrite Hd, Hprod. cbn. rewrite Hdt. cbn.
  rewrite Hcall. cbn -[_check_compatability_per_tensor_forward].
  assert (Hpass : _check_compatability_per_tensor_forward cg sys z = Ok tt).
  { apply per_tensor_forward_spec.
    - unfold ndim. rewrite Hz, length_app. simpl. lia.
    - unfold ndim. rewrite Hcg, length_app. simpl. lia.
    - unfold ndim. rewrite Hsys, length_app. simpl. lia.
    - unfold ndim. rewrite Hz, Hcg, Hsys.
      rewrite !(upto_last_app 1), (upto_last_app 2) by reflexivity.
      rewrite !last_last. rewrite length_app. cbn [length].
      replace (length batch + 2 - 2) with (length batch) by lia.
      rewrite app_nth2 by lia. rewrite Nat.sub_diag. cbn [nth].
      replace (batch ++ [hidden; input]) with ((batch ++ [hidden]) ++ [input])
        by (rewrite <- app_assoc; reflexivity).
      rewrite last_last. repeat split; reflexivity. }
  rewrite Hpass. reflexivity.
Qed.


End LayoutFacts.

(** ** The orchestration of [cdeint] *)

Section CdeintFacts.
Context {A : Type} `{Scalar A}.
Implicit Types (X : Path A) (func : Func A) (t : list A).
Implicit Types (kwargs : gmap string kwval) (odeint odeint_adjoint : integrator A).

Lemma default_tolerances_atol kwargs :
  default_tolerances kwargs !! "atol" = Some (default default_atol (kwargs !! "atol")).
Proof.
  unfold default_tolerances.
  destruct (kwargs !! "atol") as [a|] eqn:Ha; simpl.
  - destruct (kwargs !! "rtol"); [exact Ha|].
    rewrite lookup_insert_ne by discriminate. exact Ha.
  - rewrite lookup_insert_ne by discriminate.
    destruct (kwargs !! "rtol").
    + apply lookup_insert_eq.
    + rewrite lookup_insert_ne by discriminate. apply lookup_insert_eq.
Qed.

Lemma default_tolerances_rtol kwargs :
  default_tolerances kwargs !! "rtol" = Some (default default_rtol (kwargs !! "rtol")).
Proof.
  unfold default_tolerances.
  destruct (kwargs !! "atol") as [a|] eqn:Ha; simpl.
  - destruct (kwargs !! "rtol") as [r|] eqn:Hr; simpl; [exact Hr|].
    apply lookup_insert_eq.
  - rewrite lookup_insert_ne by discriminate.
    destruct (kwargs !! "rtol") as [r|] eqn:Hr; simpl.
    + rewrite lookup_insert_ne by discriminate. exact Hr.
    + apply lookup_insert_eq.
Qed.

Lemma default_tolerances_other kwargs (key : string) :
  key ≠ "atol" -> key ≠ "rtol" ->
  default_tolerances kwargs !! key = kwargs !! key.
Proof.
  intros Ha Hr. unfold default_tolerances.
  destruct (kwargs !! "atol"); simpl;
    destruct (_ !! "rtol"); simpl;
    repeat (rewrite lookup_insert_ne by congruence); reflexivity.
Qed.

(** What [cdeint] does once the coupling mode is recognised, the
    compatibility check has passed and the declared adjoint parameters
    have been collected: the warnings, then the integrator on the adapter
    with the completed keyword arguments, then the public layout. *)
Lemma cdeint_unfold odeint odeint_adjoint X func (z0 : value A) t (adjoint : bool)
    (vector_field_type : string) kwargs is_tensor is_prod tr1 ids :
  vector_field_type ∈ ["matmul"; "evaluate"; "derivative"] ->
  _check_compatability X func z0 t = (Ok (is_tensor, is_prod), tr1) ->
  (if adjoint then adjoint_params_ids (default_tolerances kwargs) else Ok []) = Ok ids ->
  cdeint odeint odeint_adjoint X func z0 t adjoint vector_field_type kwargs =
    let kwargs' := default_tolerances kwargs in
    let run := run_plan (forward (mk_VectorField X func is_tensor is_prod vector_field_type))
                 ((if adjoint then odeint_adjoint else odeint) z0 t kwargs') in
    (out ← run.1; reshape_output is_tensor out,
     tr1 ++ (if adjoint then warn_buffers (buffers X) ids else [])
         ++ EvOdeint adjoint z0 t kwargs' :: run.2).
Proof.
  intros Hvft Hcheck Hids. unfold cdeint.
  destruct (decide _) as [Hn|_]; [contradiction|].
  rewrite Hcheck. cbn.
  destruct adjoint; [rewrite Hids|]; cbn;
    destruct (run_plan _ _) as [[out|e] tr2]; cbn;
    rewrite ?app_nil_r; reflexivity.
Qed.

Ltac solve_trace :=
  cbn; repeat first [apply Forall_nil_2 | apply Forall_cons_2; [exact I|]].

Lemma check_compatability_trace X func (z0 : value A) t :
  Forall not_odeint (_check_compatability X func z0 t).2.
Proof.
  unfold _check_compatability.
  destruct (derivative X) as [d|]; [|solve_trace].
  destruct t as [|t0 t']; [solve_trace|]. cbn.
  destruct (d t0) as [cg|e]; cbn; [|solve_trace].
  destruct (prod func) as [p|]; cbn.
  - destruct (p t0 z0 cg) as [vf|e]; cbn; [|solve_trace].
    destruct (check_structure _ _ _ _); cbn; solve_trace.
  - destruct (call func t0 z0) as [sys|e]; cbn; [|solve_trace].
    destruct (check_structure _ _ _ _); cbn; solve_trace.
Qed.

Lemma forward_trace (self : _VectorField) (t : A) (z : value A) :
  Forall not_odeint (forward self t z).2.
Proof.
  unfold forward.
  destruct (derivative (vf_X self)) as [d|] eqn:Hd; [|solve_trace]. cbn.
  destruct (d t) as [cg|err] eqn:Hdt; cbn; [|solve_trace].
  destruct (is_prod self).
  - destruct (decide _) as [Hne|Heq]; cbn; [solve_trace|].
    destruct (prod (vf_func self)) as [p|]; cbn; [|solve_trace].
    destruct (p t z cg); cbn; solve_trace.
  - destruct (decide (method self ∈ _)) as [Hin|Hnin].
    + destruct (decide (method self = "evaluate")) as [Hev|Hnev].
      * destruct (evaluate (vf_X self)) as [g|]; cbn; [|solve_trace].
        destruct (g t) as [fd|err]; cbn; [|solve_trace].
        destruct (torch_cat z fd) as [fi|err]; cbn; [|solve_trace].
        destruct (call (vf_func self) t fi); cbn; solve_trace.
      * cbn. rewrite Hdt. cbn.
        destruct (torch_cat z cg) as [fi|err]; cbn; [|solve_trace].
        destruct (call (vf_func self) t fi); cbn; solve_trace.
    + cbn. destruct (call (vf_func self) t z) as [vf|err]; cbn; [|solve_trace].
      destruct (is_tensor self); cbn.
      * destruct (matvec vf cg); cbn; solve_trace.
      * destruct (iter_value vf) as [vfs|err]; cbn; [|solve_trace].
        destruct (iter_value cg) as [cgs|err]; cbn; [|solve_trace].
        destruct (matvec_each vfs cgs); cbn; solve_trace.
Qed.

Lemma run_plan_trace (rhs : A -> value A -> M A (value A)) (p : plan A) :
  (forall (s : A) (z : value A), Forall not_odeint (rhs s z).2) ->
  Forall not_odeint (run_plan rhs p).2.
Proof.
  intros Hrhs. induction p as [out|e|s z k IH]; cbn; [constructor..|].
  specialize (Hrhs s z). destruct (rhs s z) as [[v|e] tr]; cbn in *; [|exact Hrhs].
  specialize (IH v). destruct (run_plan rhs (k v)) as [r tr']; cbn in *.
  apply Forall_app; split; assumption.
Qed.

Lemma warn_buffers_trace (bufs : list Buffer) (gen : list nat) :
  Forall not_odeint (warn_buffers (A:=A) bufs gen).
Proof.
  revert gen. induction bufs as [|b bufs IH]; intros gen; cbn; [constructor|].
  destruct (requires_grad b); [|apply IH].
  destruct (gen_contains _ _) as [[|] rest]; cbn; [apply IH|].
  constructor; [exact I|apply IH].
Qed.

(** The integrator is called at most once, as [cdeint] line 225 calls it. *)
Lemma cdeint_trace odeint odeint_adjoint X func (z0 : value A) t (adjoint : bool)
    (vector_field_type : string) kwargs (ev : event A) :
  ev ∈ (cdeint odeint odeint_adjoint X func z0 t adjoint vector_field_type kwargs).2 ->
  not_odeint ev \/ ev = EvOdeint adjoint z0 t (default_tolerances kwargs).
Proof.
  unfold cdeint. destruct (decide _) as [Hn|Hy]; cbn; [intros Hin; inversion Hin|].
  pose proof (check_compatability_trace X func z0 t) as Htr1.
  destruct (_check_compatability X func z0 t) as [[[it ip]|e] tr1].
  2:{ cbn in *. intros Hin. left. rewrite Forall_forall in Htr1. auto. }
  assert (Htr2 : forall p, Forall not_odeint
            (run_plan (forward (mk_VectorField X func it ip vector_field_type)) p).2).
  { intros p. apply run_plan_trace. intros s z. apply forward_trace. }
  rewrite Forall_forall in Htr1.
  destruct adjoint; cbn in *.
  - pose proof (warn_buffers_trace (buffers X)) as Hw.
    destruct (adjoint_params_ids _) as [ids|e]; cbn.
    + specialize (Hw ids). rewrite Forall_forall in Hw.
      specialize (Htr2 (odeint_adjoint z0 t (default_tolerances kwargs))).
      rewrite Forall_forall in Htr2.
      destruct (run_plan _ _) as [[out|e] tr2]; cbn in *;
        rewrite ?app_nil_r; rewrite !elem_of_app, elem_of_cons;
        intros Hin; intuition auto.
    + rewrite app_nil_r. intros Hin. left. auto.
  - specialize (Htr2 (odeint z0 t (default_tolerances kwargs))).
    rewrite Forall_forall in Htr2.
    destruct (run_plan _ _) as [[out|e] tr2]; cbn in *;
      rewrite ?app_nil_r; rewrite !elem_of_app, elem_of_cons;
      intros Hin; intuition auto.
Qed.

(** C9: a coupling mode other than "matmul", "evaluate" and "derivative"
    makes [cdeint] raise the configuration error at once: the trace is
    empty, so neither the compatibility check nor any evaluation of [X] or
    [func] has taken place. *)
Theorem cdeint_unrecognised_mode odeint odeint_adjoint X func (z0 : value A) t
    (adjoint : bool) (vector_field_type : string) kwargs :
  vector_field_type ∉ ["matmul"; "evaluate"; "derivative"] ->
  cdeint odeint odeint_adjoint X func z0 t adjoint vector_field_type kwargs
  = (Err (ValueError NotRecognised), []).
Proof.
  intros Hvft. unfold cdeint. destruct (decide _) as [_|Hn]; [reflexivity|contradiction].
Qed.

(** C7: the keyword arguments [cdeint] passes to the external integrator
    are the caller's, with the absolute tolerance 1e-6 put in when the
    caller gave none and the relative tolerance 1e-4 put in when the caller
    gave none: a tolerance the caller gave, and every other keyword, is
    forwarded unchanged.  When the checks before it pass, the outcome of
    [cdeint] is that of the integrator applied to the adapter, [z0], [t]
    and these very arguments, brought into the public layout; and no call
    of the integrator in any run has other keyword arguments. *)
Theorem cdeint_tolerances odeint odeint_adjoint X func (z0 : value A) t
    (adjoint : bool) (vector_field_type : string) kwargs :
  let passed := default_tolerances kwargs in
  let run := cdeint odeint odeint_adjoint X func z0 t adjoint vector_field_type kwargs in
  ((kwargs !! "atol" = None -> passed !! "atol" = Some (KFloat (mkDec 1 (-6)))) /\
   (forall v, kwargs !! "atol" = Some v -> passed !! "atol" = Some v) /\
   (kwargs !! "rtol" = None -> passed !! "rtol" = Some (KFloat (mkDec 1 (-4)))) /\
   (forall v, kwargs !! "rtol" = Some v -> passed !! "rtol" = Some v) /\
   (forall key : string, key ≠ "atol" -> key ≠ "rtol" -> passed !! key = kwargs !! key)) /\
  (forall is_tensor is_prod tr1 ids,
     vector_field_type ∈ ["matmul"; "evaluate"; "derivative"] ->
     _check_compatability X func z0 t = (Ok (is_tensor, is_prod), tr1) ->
     (if adjoint then adjoint_params_ids passed else Ok []) = Ok ids ->
     let integration :=
       run_plan (forward (mk_VectorField X func is_tensor is_prod vector_field_type))
                ((if adjoint then odeint_adjoint else odeint) z0 t passed) in
     run = (out ← integration.1; reshape_output is_tensor out,
            tr1 ++ (if adjoint then warn_buffers (buffers X) ids else [])
                ++ EvOdeint adjoint z0 t passed :: integration.2)) /\
  (forall adj y0 ts given,
     EvOdeint adj y0 ts given ∈ run.2 ->
     adj = adjoint /\ y0 = z0 /\ ts = t /\ given = passed).
Proof.
  intros passed run. split; [|split].
  - pose proof (default_tolerances_atol kwargs) as Ha.
    pose proof (default_tolerances_rtol kwargs) as Hr.
    subst passed. repeat split.
    + intros Hnone. rewrite Ha, Hnone. reflexivity.
    + intros v Hv. rewrite Ha, Hv. reflexivity.
    + intros Hnone. rewrite Hr, Hnone. reflexivity.
    + intros v Hv. rewrite Hr, Hv. reflexivity.
    + intros key Hka Hkr. apply default_tolerances_other; assumption.
  - intros it ip tr1 ids Hvft Hcheck Hids.
    exact (cdeint_unfold _ _ _ _ _ _ _ _ _ it ip tr1 ids Hvft Hcheck Hids).
  - intros adj y0 ts given Hin.
    apply cdeint_trace in Hin as [Hno|Heq]; [destruct Hno|].
    injection Heq as -> -> -> ->. repeat split.
Qed.

(** C4 (as amended): when [func] has [prod] and the coupling mode is
    "evaluate" or "derivative", every evaluation of the adapter's
    right-hand side raises, [NotImplementedError] once [X.derivative(t)]
    has returned, and calls neither [func] nor [func.prod]; the
    compatibility check does not look at the coupling mode, so when it
    passes [cdeint] calls the integrator and raises at the integrator's
    first evaluation of the right-hand side. *)
Theorem forward_prod_requires_matmul odeint odeint_adjoint X func (z0 : value A) t
    (adjoint : bool) (vector_field_type : string) kwargs func_prod :
  prod func = Some func_prod ->
  vector_field_type ∈ ["evaluate"; "derivative"] ->
  (forall is_tensor (s : A) (z : value A),
     exists e,
       forward (mk_VectorField X func is_tensor true vector_field_type) s z
       = (Err e, match derivative X with Some _ => [EvDerivative s] | None => [] end) /\
       (forall X_derivative cg,
          derivative X = Some X_derivative -> X_derivative s = Ok cg ->
          e = NotImplementedError)) /\
  (forall is_tensor is_prod tr1 ids (s : A) (z : value A) k,
     _check_compatability X func z0 t = (Ok (is_tensor, is_prod), tr1) ->
     (if adjoint then adjoint_params_ids (default_tolerances kwargs) else Ok []) = Ok ids ->
     (if adjoint then odeint_adjoint else odeint) z0 t (default_tolerances kwargs)
     = Eval s z k ->
     exists e,
       cdeint odeint odeint_adjoint X func z0 t adjoint vector_field_type kwargs
       = (Err e, tr1 ++ (if adjoint then warn_buffers (buffers X) ids else [])
                     ++ [EvOdeint adjoint z0 t (default_tolerances kwargs); EvDerivative s]) /\
       (forall X_derivative cg,
          derivative X = Some X_derivative -> X_derivative s = Ok cg ->
          e = NotImplementedError)).
Proof.
  intros Hprod Hvft.
  assert (Hne : vector_field_type ≠ "matmul").
  { intros ->. apply elem_of_cons in Hvft as [Hvft|Hvft]; [discriminate|].
    apply elem_of_cons in Hvft as [Hvft|Hvft]; [discriminate|inversion Hvft]. }
  assert (Hfwd : forall is_tensor (s : A) (z : value A),
     exists e,
       forward (mk_VectorField X func is_tensor true vector_field_type) s z
       = (Err e, match derivative X with Some _ => [EvDerivative s] | None => [] end) /\
       (forall X_derivative cg,
          derivative X = Some X_derivative -> X_derivative s = Ok cg ->
          e = NotImplementedError)).
  { intros it s z. unfold forward. cbn.
    destruct (derivative X) as [d|].
    - cbn. destruct (d s) as [cg|e] eqn:Hds; cbn.
      + destruct (decide _) as [_|Heq]; [|contradiction]. cbn.
        exists NotImplementedError. split; [reflexivity|auto].
      + exists e. split; [reflexivity|]. intros d' cg [= <-] Hds'. congruence.
    - exists AttributeError. split; [reflexivity|]. discriminate. }
  split; [exact Hfwd|].
  intros it ip tr1 ids s z k Hcheck Hids Hplan.
  assert (Hip : ip = true).
  { unfold _check_compatability in Hcheck. rewrite Hprod in Hcheck.
    destruct (derivative X) as [d|]; [|discriminate].
    destruct t as [|t0 t']; [discriminate|]. cbn in Hcheck.
    destruct (d t0) as [cg|e]; cbn in Hcheck; [|discriminate].
    destruct (func_prod t0 z0 cg) as [vf|e]; cbn in Hcheck; [|discriminate].
    destruct (check_structure _ _ _ _); cbn in Hcheck; [|discriminate].
    injection Hcheck as _ <- _. reflexivity. }
  subst ip.
  assert (Hrec : vector_field_type ∈ ["matmul"; "evaluate"; "derivative"])
    by (right; exact Hvft).
  rewrite (cdeint_unfold _ _ _ _ _ _ _ _ _ it true tr1 ids Hrec Hcheck Hids).
  cbn zeta. rewrite Hplan. cbn [run_plan].
  destruct (Hfwd it s z) as (e & -> & He). cbn.
  exists e. split; [|exact He].
  destruct (derivative X) as [d|] eqn:Hd; [reflexivity|].
  exfalso. unfold _check_compatability in Hcheck. rewrite Hd in Hcheck. discriminate.
Qed.



End CdeintFacts.

(** ** Gradient isolation *)

Section AutogradFacts.
Import Autograd.

Lemma closure_app (g1 g2 : graph) (table : list (list nat)) :
  closure (g1 ++ g2) table = closure g2 (closure g1 table).
Proof.
  revert table. induction g1 as [|n g1 IH]; intros table; [reflexivity|].
  simpl. apply IH.
Qed.

Lemma closure_length (g : graph) (table : list (list nat)) :
  length (closure g table) = length table + length g.
Proof.
  revert table. induction g as [|n g IH]; intros table; simpl; [lia|].
  rewrite IH, length_app. simpl. lia.
Qed.

Lemma closure_snoc (g : graph) (n : node) :
  closure (g ++ [n]) []
  = closure g [] ++ [length g :: flat_map (depends_on g) (inputs n)].
Proof.
  rewrite closure_app. simpl. rewrite closure_length. reflexivity.
Qed.

Lemma depends_on_old (g : graph) (n : node) (v : nat) :
  v < length g -> depends_on (g ++ [n]) v = depends_on g v.
Proof.
  intros Hv. unfold depends_on. rewrite closure_snoc.
  apply app_nth1. rewrite closure_length. simpl. exact Hv.
Qed.

Lemma depends_on_new (g : graph) (n : node) :
  depends_on (g ++ [n]) (length g) = length g :: flat_map (depends_on g) (inputs n).
Proof.
  unfold depends_on at 1. rewrite closure_snoc.
  rewrite app_nth2 by (rewrite closure_length; simpl; lia).
  rewrite closure_length. simpl. rewrite Nat.sub_diag. reflexivity.
Qed.

Lemma depends_on_beyond (g : graph) (v : nat) : length g <= v -> depends_on g v = [].
Proof.
  intros Hv. unfold depends_on. apply nth_overflow.
  rewrite closure_length. simpl. exact Hv.
Qed.

(** A node depends on itself and on earlier nodes only. *)
Lemma depends_on_le (g : graph) (v x : nat) : In x (depends_on g v) -> x <= v.
Proof.
  revert v x. induction g as [|n g IH] using rev_ind; intros v x Hin.
  - rewrite depends_on_beyond in Hin by (simpl; lia). destruct Hin.
  - destruct (Nat.lt_ge_cases v (length g)) as [Hlt|Hge].
    + rewrite depends_on_old in Hin by exact Hlt. apply IH. exact Hin.
    + destruct (Nat.eq_dec v (length g)) as [->|Hne].
      * rewrite depends_on_new in Hin. destruct Hin as [<-|Hin]; [lia|].
        apply in_flat_map in Hin as (j & _ & Hj).
        destruct (Nat.lt_ge_cases j (length g)) as [Hjl|Hjg].
        -- apply IH in Hj. lia.
        -- rewrite depends_on_beyond in Hj by exact Hjg. destruct Hj.
      * rewrite depends_on_beyond in Hin by (rewrite length_app; simpl; lia).
        destruct Hin.
Qed.

(** Computing a function of [arg] only adds nodes, and its result depends
    on new nodes and on what [arg] depends on. *)
Lemma apply_fn_depends (P : nat -> Prop) (F : fn) (arg : nat) (g : graph) :
  arg < length g ->
  (forall x, In x (depends_on g arg) -> P x) ->
  (forall x, length g <= x -> P x) ->
  (apply_fn F arg g).1 < length (apply_fn F arg g).2 /\
  length g <= length (apply_fn F arg g).2 /\
  (forall v, v < length g -> depends_on (apply_fn F arg g).2 v = depends_on g v) /\
  (forall x, In x (depends_on (apply_fn F arg g).2 (apply_fn F arg g).1) -> P x).
Proof.
  revert g. induction F as [|c|f IH|f1 IH1 f2 IH2]; intros g Harg Hdep Hnew.
  - simpl. repeat split; auto.
  - simpl. rewrite length_app. simpl. repeat split; try lia.
    + intros v Hv. apply depends_on_old. exact Hv.
    + intros x. rewrite depends_on_new. simpl. intros [<-|[]]. apply Hnew. lia.
  - simpl. destruct (IH g Harg Hdep Hnew) as (Hout & Hlen & Hold & HP).
    destruct (apply_fn f arg g) as [v g1]. simpl in *.
    rewrite length_app. simpl. repeat split; try lia.
    + intros w Hw. rewrite depends_on_old by lia. apply Hold. exact Hw.
    + intros x. rewrite depends_on_new. simpl. rewrite app_nil_r.
      intros [<-|Hin]; [apply Hnew; lia|apply HP; exact Hin].
  - simpl. destruct (IH1 g Harg Hdep Hnew) as (Hout1 & Hlen1 & Hold1 & HP1).
    destruct (apply_fn f1 arg g) as [v1 g1]. simpl in *.
    assert (Harg1 : arg < length g1) by lia.
    assert (Hdep1 : forall x, In x (depends_on g1 arg) -> P x)
      by (intros x; rewrite Hold1 by exact Harg; apply Hdep).
    assert (Hnew1 : forall x, length g1 <= x -> P x) by (intros x Hx; apply Hnew; lia).
    destruct (IH2 g1 Harg1 Hdep1 Hnew1) as (Hout2 & Hlen2 & Hold2 & HP2).
    destruct (apply_fn f2 arg g1) as [v2 g2]. simpl in *.
    rewrite length_app. simpl. repeat split; try lia.
    + intros w Hw. rewrite depends_on_old by lia. rewrite Hold2 by lia. apply Hold1. exact Hw.
    + intros x. rewrite depends_on_new. simpl. rewrite app_nil_r.
      intros [<-|Hin]; [apply Hnew; lia|].
      apply in_app_or in Hin as [Hin|Hin]; [|apply HP2; exact Hin].
      rewrite Hold2 in Hin by exact Hout1. apply HP1. exact Hin.
Qed.

Lemma grad_none (g : graph) (out wrt : nat) :
  ~ In wrt (depends_on g out) -> grad g out wrt = None.
Proof.
  intros Hn. unfold grad. destruct (decide _) as [Hin|_]; [|reflexivity].
  exfalso. apply Hn. apply list_elem_of_In. exact Hin.
Qed.

(** C6: let [A] be a value of the graph and [B] the value that [register]
    installs from [A.clone()].  [B] has the data of [A]; differentiating
    any function of [B] with respect to [A] gives no gradient, and
    differentiating any function of [A] with respect to [B] gives none
    either. *)
Theorem registered_copy_isolated (g : graph) (A : nat) (container : gmap string nat)
    (name : string) (F : fn) :
  A < length g ->
  let '(copy, g1) := clone A g in
  let '(container', g2) := register container name copy g1 in
  exists B,
    container' !! name = Some B /\
    data_of g2 B = data_of g A /\
    (let '(out, g3) := apply_fn F B g2 in grad g3 out A = None) /\
    (let '(out, g3) := apply_fn F A g2 in grad g3 out B = None).
Proof.
  intros HA. unfold clone, register, add_node. rewrite length_app. cbn [length].
  set (n1 := mkNode [A] (data_of g A)).
  set (n2 := mkNode [] (data_of (g ++ [n1]) (length g))).
  set (g2 := (g ++ [n1]) ++ [n2]).
  assert (Hlen2 : length g2 = length g + 2)
    by (unfold g2; rewrite !length_app; simpl; lia).
  exists (length g + 1). split; [apply lookup_insert_eq|]. split.
  - unfold data_of, g2.
    rewrite app_nth2 by (rewrite length_app; simpl; lia).
    rewrite length_app. cbn [length]. rewrite Nat.sub_diag. cbn [nth payload n2].
    unfold data_of. rewrite app_nth2 by lia. rewrite Nat.sub_diag. reflexivity.
  - assert (HB : depends_on g2 (length g + 1) = [length g + 1]).
    { unfold g2. replace (length g + 1) with (length (g ++ [n1]))
        by (rewrite length_app; reflexivity).
      rewrite depends_on_new. reflexivity. }
    split.
    + pose proof (apply_fn_depends (fun x => x <> A) F (length g + 1) g2) as Hinv.
      destruct Hinv as (_ & _ & _ & HP).
      * lia.
      * intros x. rewrite HB. intros [<-|[]]. lia.
      * intros x Hx. lia.
      * destruct (apply_fn F (length g + 1) g2) as [out g3]. simpl in HP.
        apply grad_none. intros Hin. apply (HP _ Hin). reflexivity.
    + pose proof (apply_fn_depends (fun x => x <> length g + 1) F A g2) as Hinv.
      destruct Hinv as (_ & _ & _ & HP).
      * lia.
      * intros x Hin. apply depends_on_le in Hin. lia.
      * intros x Hx. lia.
      * destruct (apply_fn F A g2) as [out g3]. simpl in HP.
        apply grad_none. intros Hin. apply (HP _ Hin). reflexivity.
Qed.

End AutogradFacts.

(** ** Instances of the orchestration results *)

Lemma cdeint_unrecognised_mode_witness :
  ("spline" ∉ ["matmul"; "evaluate"; "derivative"]) /\
  cdeint Sample.odeint Sample.odeint Sample.X Sample.func (VTensor Sample.z0)
         [0; 9]%Z true "spline" ∅
  = (Err (ValueError NotRecognised), []).
Proof.
  assert (Hn : "spline" ∉ ["matmul"; "evaluate"; "derivative"]).
  { apply (bool_decide_unpack _). vm_compute. exact I. }
  split; [exact Hn|]. apply cdeint_unrecognised_mode. exact Hn.
Defined.

Lemma cdeint_tolerances_witness :
  let passed : gmap string kwval :=
    <["rtol" := KFloat (mkDec 1 (-4))]> (<["atol" := KFloat (mkDec 1 (-6))]> ∅) in
  let integration :=
    run_plan (forward (mk_VectorField Sample.X Sample.func true false "matmul"))
             (Sample.odeint (VTensor Sample.z0) [0; 9]%Z passed) in
  cdeint Sample.odeint Sample.odeint Sample.X Sample.func (VTensor Sample.z0)
         [0; 9]%Z true "matmul" ∅
  = (out ← integration.1; reshape_output true out,
     [EvDerivative 0%Z; EvFunc 0%Z (VTensor Sample.z0); EvWarn 1; EvWarn 2]
       ++ EvOdeint true (VTensor Sample.z0) [0; 9]%Z passed :: integration.2).
Proof.
  destruct (cdeint_tolerances Sample.odeint Sample.odeint Sample.X Sample.func
              (VTensor Sample.z0) [0; 9]%Z true "matmul" ∅) as (_ & Happlied & _).
  apply (Happlied true false [EvDerivative 0%Z; EvFunc 0%Z (VTensor Sample.z0)] []).
  - apply (bool_decide_unpack _). vm_compute. exact I.
  - reflexivity.
  - reflexivity.
Defined.

(** C4 (as stated): with [prod] and the coupling mode "evaluate" the
    compatibility check at [t[0]] passes, [cdeint] calls the integrator,
    and the exception comes from the right-hand side the integrator
    evaluates: it is not raised before integration begins. *)
Lemma prod_evaluate_passes_preflight :
  prod Sample.func_prod <> None /\
  (_check_compatability Sample.X Sample.func_prod (VTensor Sample.z0) [0; 9]%Z).1
  = Ok (true, true) /\
  (cdeint Sample.odeint Sample.odeint Sample.X Sample.func_prod (VTensor Sample.z0)
          [0; 9]%Z false "evaluate" ∅).1 = Err NotImplementedError /\
  ~ raises_before_integration
      (cdeint Sample.odeint Sample.odeint Sample.X Sample.func_prod (VTensor Sample.z0)
              [0; 9]%Z false "evaluate" ∅).
Proof.
  split; [discriminate|]. split; [reflexivity|]. split; [reflexivity|].
  intros [_ Hall]. vm_compute in Hall.
  apply Forall_cons_1 in Hall as [_ Hall].
  apply Forall_cons_1 in Hall as [_ Hall].
  apply Forall_cons_1 in Hall as [Hodeint _]. exact Hodeint.
Qed.

Lemma forward_prod_requires_matmul_witness :
  cdeint Sample.odeint Sample.odeint Sample.X Sample.func_prod (VTensor Sample.z0)
         [0; 9]%Z false "evaluate" ∅
  = (Err NotImplementedError,
     [EvDerivative 0%Z;
      EvProd 0%Z (VTensor Sample.z0) (VTensor (Sample.dX 0));
      EvOdeint false (VTensor Sample.z0) [0; 9]%Z (default_tolerances ∅);
      EvDerivative 0%Z]).
Proof.
  destruct (forward_prod_requires_matmul Sample.odeint Sample.odeint Sample.X
              Sample.func_prod (VTensor Sample.z0) [0; 9]%Z false "evaluate" ∅
              (fun _ z _ => Ok z)) as [_ Hrun].
  - reflexivity.
  - left.
  - edestruct (Hrun true true) as (e & Heq & He).
    + reflexivity.
    + reflexivity.
    + reflexivity.
    + rewrite (He (fun t => Ok (VTensor (Sample.dX t))) (VTensor (Sample.dX 0)) eq_refl eq_refl) in Heq.
      exact Heq.
Defined.

(** ** Instances of the adapter and layout results *)

Lemma forward_matmul_witness :
  forward (mk_VectorField Sample.X Sample.func true false "matmul") 2%Z (VTensor Sample.z0)
  = (Ok (VTensor (mkTensor [1; 3] [4; 10; 16]%Z)),
     [EvDerivative 2%Z; EvFunc 2%Z (VTensor Sample.z0)]) /\
  forward (mk_VectorField Sample.X Sample.func_prod true true "matmul") 2%Z (VTensor Sample.z0)
  = (Ok (VTensor Sample.z0),
     [EvDerivative 2%Z; EvProd 2%Z (VTensor Sample.z0) (VTensor (Sample.dX 2))]) /\
  forward (mk_VectorField Sample.X2 Sample.func2 false false "matmul") 2%Z
          (VTuple [VTensor Sample.z0; VTensor Sample.z0])
  = (Ok (VTuple [VTensor (mkTensor [1; 3] [4; 10; 16]%Z);
                 VTensor (mkTensor [1; 3] [4; 10; 16]%Z)]),
     [EvDerivative 2%Z; EvFunc 2%Z (VTuple [VTensor Sample.z0; VTensor Sample.z0])]).
Proof.
  split; [|split].
  - destruct (forward_matmul Sample.X Sample.func _ 2%Z (VTensor Sample.z0)
                (VTensor (Sample.dX 2)) eq_refl eq_refl) as (Hsingle & _ & _).
    destruct (Hsingle Sample.system (Sample.dX 2) [1] 3 2
                eq_refl eq_refl eq_refl eq_refl) as (Hrhs & _).
    exact Hrhs.
  - destruct (forward_matmul Sample.X Sample.func_prod _ 2%Z (VTensor Sample.z0)
                (VTensor (Sample.dX 2)) eq_refl eq_refl) as (_ & Hprod & _).
    exact (Hprod true _ eq_refl).
  - destruct (forward_matmul Sample.X2 Sample.func2 _ 2%Z
                (VTuple [VTensor Sample.z0; VTensor Sample.z0])
                (VList [VTensor (Sample.dX 2); VTensor (Sample.dX 2)])
                eq_refl eq_refl) as (_ & _ & Htuple).
    destruct (Htuple _ [Sample.system; Sample.system] [Sample.dX 2; Sample.dX 2]
                eq_refl eq_refl eq_refl) as (Hrhs & _).
    + repeat constructor; exists [1], 3, 2; split; reflexivity.
    + exact Hrhs.
Defined.

Lemma forward_concatenates_witness :
  forward (mk_VectorField Sample.X Sample.func_echo true false "evaluate") 2%Z
          (VTensor Sample.z0)
  = (Ok (VTensor (mkTensor [1; 5] [1; 2; 3; 5; 6]%Z)),
     [EvDerivative 2%Z; EvEvaluate 2%Z;
      EvPrint (VTensor (mkTensor [1; 5] [1; 2; 3; 5; 6]%Z));
      EvFunc 2%Z (VTensor (mkTensor [1; 5] [1; 2; 3; 5; 6]%Z))]).
Proof.
  destruct (forward_concatenates Sample.X Sample.func_echo true _ 2%Z (VTensor Sample.z0)
              (VTensor (Sample.dX 2)) eq_refl eq_refl) as (_ & _ & Hcat).
  destruct (Hcat Sample.z0 (mkTensor [1; 2] [5; 6]%Z) [1] 3 2 eq_refl eq_refl eq_refl)
    as (c & Hc & _ & _ & Hevaluate & _).
  vm_compute in Hc. injection Hc as <-.
  exact (Hevaluate _ eq_refl eq_refl).
Defined.


Lemma registered_copy_isolated_witness :
  let g := [Autograd.mkNode [] 7%Z] in
  0 < length g /\
  let '(copy, g1) := Autograd.clone 0 g in
  let '(container', g2) := Autograd.register ∅ "variable" copy g1 in
  exists B,
    container' !! "variable" = Some B /\
    Autograd.data_of g2 B = Autograd.data_of g 0 /\
    (let '(out, g3) := Autograd.apply_fn (Autograd.Op1 Autograd.Arg) B g2 in
     Autograd.grad g3 out 0 = None) /\
    (let '(out, g3) := Autograd.apply_fn (Autograd.Op1 Autograd.Arg) 0 g2 in
     Autograd.grad g3 out B = None).
Proof.
  assert (Hlt : 0 < length [Autograd.mkNode [] 7%Z]) by (simpl; lia).
  split; [exact Hlt|].
  exact (registered_copy_isolated [Autograd.mkNode [] 7%Z] 0 ∅ "variable"
           (Autograd.Op1 Autograd.Arg) Hlt).
Defined.

(** Without [register] the gradient path is there: a function of
    [x.clone()] has a gradient with respect to [x]. *)
Example grad_through_clone :
  let '(x, g0) := Autograd.leaf 7%Z [] in
  let '(y, g1) := Autograd.clone x g0 in
  let '(out, g2) := Autograd.apply_fn (Autograd.Op1 Autograd.Arg) y g1 in
  Autograd.grad g2 out x = Some tt /\ Autograd.grad g2 x out = None.
Proof. split; reflexivity. Qed.

(** [test_computed_parameter]: [variable] registered from [x.clone()],
    [variable2] from [variable.clone()]; neither sum has a gradient with
    respect to the other value. *)
Example test_computed_parameter :
  let '(x, g0) := Autograd.leaf 7%Z [] in
  let '(c1, g1) := Autograd.clone x g0 in
  let '(self1, g2) := Autograd.register ∅ "variable" c1 g1 in
  let variable := default 0 (self1 !! "variable") in
  let '(c2, g3) := Autograd.clone variable g2 in
  let '(self2, g4) := Autograd.register self1 "variable2" c2 g3 in
  let variable2 := default 0 (self2 !! "variable2") in
  let '(sum2, g5) := Autograd.apply_fn (Autograd.Op1 Autograd.Arg) variable2 g4 in
  let '(sum1, g6) := Autograd.apply_fn (Autograd.Op1 Autograd.Arg) variable g5 in
  Autograd.grad g6 sum2 variable = None /\ Autograd.grad g6 sum1 variable2 = None.
Proof. vm_compute. split; reflexivity. Qed.

(** ** Outcomes of the per-tensor check *)

Lemma shape_split_last (s : list nat) :
  1 <= length s -> s = upto_last 1 s ++ [List.last s 0].
Proof.
  intros Hs. destruct s as [|n s] using rev_ind; [simpl in Hs; lia|].
  rewrite (upto_last_app 1) by reflexivity. rewrite last_last. reflexivity.
Qed.

Lemma shape_split_last_two (s : list nat) :
  2 <= length s ->
  s = upto_last 2 s ++ [nth (length s - 2) s 0; List.last s 0].
Proof.
  intros Hs. destruct s as [|b s _] using rev_ind; [simpl in Hs; lia|].
  destruct s as [|a s _] using rev_ind;
    [rewrite length_app in Hs; simpl in Hs; lia|].
  rewrite <- app_assoc. cbn [app].
  rewrite (upto_last_app 2) by reflexivity.
  rewrite length_app. cbn [length].
  replace (length s + 2 - 2) with (length s) by lia.
  rewrite app_nth2 by lia. rewrite Nat.sub_diag. cbn [nth].
  replace (s ++ [a; b]) with ((s ++ [a]) ++ [b]) by (rewrite <- app_assoc; reflexivity).
  rewrite last_last. rewrite <- app_assoc. reflexivity.
Qed.

Section CheckOutcomes.
Context {A : Type} `{Scalar A}.

Lemma size_last_missing (x : Tensor A) : ndim x = 0 -> size x (-1) = Err IndexError.
Proof.
  unfold size, wrap_dim. intros ->. reflexivity.
Qed.

Lemma size_second_to_last_missing (x : Tensor A) :
  ndim x < 2 -> size x (-2) = Err IndexError.
Proof.
  unfold size, wrap_dim. intros Hn.
  replace ((0 <=? -2)%Z) with false by reflexivity. cbn [andb].
  destruct (Z.leb_spec (- Z.of_nat (ndim x)) (-2)); [lia|]. reflexivity.
Qed.

Lemma per_tensor_forward_shapes (control_gradient system z0 : Tensor A) :
  _check_compatability_per_tensor_forward control_gradient system z0 = Ok tt <->
  exists batch hidden input,
    shape z0 = batch ++ [hidden] /\
    shape control_gradient = batch ++ [input] /\
    shape system = batch ++ [hidden; input].
Proof.
  split.
  - intros Hok.
    destruct (Nat.lt_ge_cases (ndim system) 2) as [Hs|Hs].
    { exfalso. unfold _check_compatability_per_tensor_forward in Hok.
      destruct (_check_compatability_per_tensor_base control_gradient z0);
        cbn in Hok; [|discriminate].
      destruct (decide _); [discriminate|].
      rewrite (size_second_to_last_missing system Hs) in Hok. discriminate. }
    destruct (Nat.eq_dec (ndim z0) 0) as [Hz|Hz].
    { exfalso. unfold _check_compatability_per_tensor_forward in Hok.
      destruct (_check_compatability_per_tensor_base control_gradient z0);
        cbn in Hok; [|discriminate].
      destruct (decide _); [discriminate|].
      rewrite (size_second_to_last system Hs), (size_last_missing z0 Hz) in Hok.
      discriminate. }
    destruct (Nat.eq_dec (ndim control_gradient) 0) as [Hc|Hc].
    { exfalso. unfold _check_compatability_per_tensor_forward in Hok.
      destruct (_check_compatability_per_tensor_base control_gradient z0);
        cbn in Hok; [|discriminate].
      destruct (decide _); [discriminate|].
      rewrite (size_second_to_last system Hs), (size_last z0 ltac:(lia)) in Hok.
      cbn in Hok. destruct (decide _); [discriminate|].
      rewrite (size_last system ltac:(lia)), (size_last_missing _ Hc) in Hok.
      discriminate. }
    apply per_tensor_forward_spec in Hok as (Hb1 & Hb2 & Hh & Hi); try lia.
    exists (upto_last 1 (shape z0)), (List.last (shape z0) 0),
           (List.last (shape control_gradient) 0).
    split; [apply shape_split_last; unfold ndim in *; lia|].
    split; [rewrite <- Hb1; apply shape_split_last; unfold ndim in *; lia|].
    rewrite <- Hb2, <- Hh, <- Hi. apply shape_split_last_two. exact Hs.
  - intros (batch & hidden & input & Hz & Hcg & Hsys).
    apply per_tensor_forward_spec.
    + unfold ndim. rewrite Hz, length_app. simpl. lia.
    + unfold ndim. rewrite Hcg, length_app. simpl. lia.
    + unfold ndim. rewrite Hsys, length_app. simpl. lia.
    + unfold ndim. rewrite Hz, Hcg, Hsys.
      rewrite !(upto_last_app 1), (upto_last_app 2) by reflexivity.
      rewrite !last_last. rewrite length_app. cbn [length].
      replace (length batch + 2 - 2) with (length batch) by lia.
      rewrite app_nth2 by lia. rewrite Nat.sub_diag. cbn [nth].
      replace (batch ++ [hidden; input]) with ((batch ++ [hidden]) ++ [input])
        by (rewrite <- app_assoc; reflexivity).
      rewrite last_last. repeat split; reflexivity.
Qed.

(** X1: the per-tensor check without the shortcut passes exactly for the
    shapes [batch ++ [hidden]] of the state, [batch ++ [input]] of the
    control gradient and [batch ++ [hidden; input]] of the system. *)
Theorem per_tensor_forward_passes_iff (control_gradient system z0 : Tensor A) :
  _check_compatability_per_tensor_forward control_gradient system z0 = Ok tt <->
  exists batch hidden input,
    shape z0 = batch ++ [hidden] /\
    shape control_gradient = batch ++ [input] /\
    shape system = batch ++ [hidden; input].
Proof. apply per_tensor_forward_shapes. Qed.

(** X2: when the per-tensor check without the shortcut fails, it fails
    with one of its four shape errors or with [IndexError]; the latter
    only after both batch comparisons have passed, for a system with
    fewer than two dimensions, or a state or control gradient with none. *)
Theorem per_tensor_forward_failures (control_gradient system z0 : Tensor A) (e : exn) :
  _check_compatability_per_tensor_forward control_gradient system z0 = Err e ->
  is_shape_error e = true \/
  (e = IndexError /\
   upto_last 1 (shape control_gradient) = upto_last 1 (shape z0) /\
   upto_last 2 (shape system) = upto_last 1 (shape z0) /\
   (ndim system < 2 \/ ndim z0 = 0 \/ ndim control_gradient = 0)).
Proof.
  intros Herr.
  destruct (Nat.lt_ge_cases (ndim system) 2) as [Hs|Hs];
    [|destruct (Nat.eq_dec (ndim z0) 0) as [Hz|Hz];
      [|destruct (Nat.eq_dec (ndim control_gradient) 0) as [Hc|Hc]]].
  4:{ left. eapply per_tensor_forward_spec; [| | |exact Herr]; lia. }
  all: unfold _check_compatability_per_tensor_forward in Herr;
    destruct (per_tensor_base_spec control_gradient z0) as [Hbase Hbase_err];
    destruct (_check_compatability_per_tensor_base control_gradient z0) as [[]|e0];
    cbn in Herr; [|left; apply Hbase_err; congruence];
    destruct (decide (upto_last 2 (shape system) ≠ upto_last 1 (shape z0))) as [Hne|Heq];
    [injection Herr as <-; left; reflexivity|];
    assert (Hb2 : upto_last 2 (shape system) = upto_last 1 (shape z0))
      by (destruct (decide (upto_last 2 (shape system) = upto_last 1 (shape z0)));
          [assumption|contradiction]);
    assert (Hb1 : upto_last 1 (shape control_gradient) = upto_last 1 (shape z0))
      by (apply Hbase; reflexivity).
  - rewrite (size_second_to_last_missing system Hs) in Herr. cbn in Herr.
    injection Herr as <-. right. repeat split; auto.
  - rewrite (size_second_to_last system Hs), (size_last_missing z0 Hz) in Herr.
    cbn in Herr. injection Herr as <-. right. repeat split; auto.
  - rewrite (size_second_to_last system Hs), (size_last z0 ltac:(lia)) in Herr.
    cbn in Herr. destruct (decide _); [injection Herr as <-; left; reflexivity|].
    rewrite (size_last system ltac:(lia)), (size_last_missing _ Hc) in Herr.
    cbn in Herr. injection Herr as <-. right. repeat split; auto.
Qed.

End CheckOutcomes.

(** ** The pre-flight evaluation and the first right-hand side *)

Section PreflightFacts.
Context {A : Type} `{Scalar A}.

(** What a passing [_check_compatability] has evaluated. *)
Lemma check_compatability_ok_inv (X : Path A) (func : Func A) (z0 : value A)
    (t : list A) (it ip : bool) (tr : list (event A)) :
  _check_compatability X func z0 t = (Ok (it, ip), tr) ->
  exists X_derivative t0 t' cg out,
    derivative X = Some X_derivative /\ t = t0 :: t' /\
    X_derivative t0 = Ok cg /\
    check_structure ip cg out z0 = Ok it /\
    match prod func with
    | Some func_prod =>
        ip = true /\ func_prod t0 z0 cg = Ok out /\
        tr = [EvDerivative t0; EvProd t0 z0 cg]
    | None =>
        ip = false /\ call func t0 z0 = Ok out /\
        tr = [EvDerivative t0; EvFunc t0 z0]
    end.
Proof.
  unfold _check_compatability.
  destruct (derivative X) as [d|]; [|discriminate].
  destruct t as [|t0 t']; [discriminate|]. cbn.
  destruct (d t0) as [cg|e] eqn:Hdt; cbn; [|discriminate].
  destruct (prod func) as [p|]; cbn.
  - destruct (p t0 z0 cg) as [vf|e] eqn:Hp; cbn; [|discriminate].
    destruct (check_structure true cg vf z0) as [b|e] eqn:Hc; cbn; [|discriminate].
    intros [= <- <- <-]. exists d, t0, t', cg, vf. repeat split; assumption.
  - destruct (call func t0 z0) as [sys|e] eqn:Hf; cbn; [|discriminate].
    destruct (check_structure false cg sys z0) as [b|e] eqn:Hc; cbn; [|discriminate].
    intros [= <- <- <-]. exists d, t0, t', cg, sys. repeat split; assumption.
Qed.

(** The adapter in "matmul" mode without the shortcut, step by step. *)
Lemma forward_matmul_steps (X : Path A) (func : Func A) (it : bool)
    (X_derivative : A -> res (value A)) (t : A) (z : value A) :
  derivative X = Some X_derivative ->
  forward (mk_VectorField X func it false "matmul") t z
  = (_ ← emit (EvDerivative t); cgv ← lift (X_derivative t);
     _ ← emit (EvFunc t z); vector_field ← lift (call func t z);
     if it then lift (matvec vector_field cgv)
     else lift (vfs ← iter_value vector_field; cgs ← iter_value cgv;
                outs ← matvec_each vfs cgs; Ok (VTuple outs))).
Proof.
  intros Hd. unfold forward. cbn [vf_X vf_func is_prod is_tensor method].
  rewrite Hd.
  destruct (decide ("matmul" ∈ ["evaluate"; "derivative"])) as [Hin|_]; [|reflexivity].
  exfalso. apply elem_of_cons in Hin as [Hin|Hin]; [discriminate|].
  apply elem_of_cons in Hin as [Hin|Hin]; [discriminate|inversion Hin].
Qed.

(** X3: a passing pre-flight check has evaluated [X.derivative] at
    [t[0]], then [func.prod] when [func] has it and [func] otherwise, at
    [(t[0], z0)], and nothing else; [is_prod] tells which. *)
Theorem preflight_evaluations (X : Path A) (func : Func A) (z0 : value A)
    (t : list A) (it ip : bool) (tr : list (event A)) :
  _check_compatability X func z0 t = (Ok (it, ip), tr) ->
  exists X_derivative t0 cg,
    derivative X = Some X_derivative /\ head t = Some t0 /\
    X_derivative t0 = Ok cg /\
    ip = match prod func with Some _ => true | None => false end /\
    tr = [EvDerivative t0; if ip then EvProd t0 z0 cg else EvFunc t0 z0].
Proof.
  intros Hcheck.
  apply check_compatability_ok_inv in Hcheck
    as (d & t0 & t' & cg & out & Hd & -> & Hdt & _ & Hprod).
  exists d, t0, cg. split; [exact Hd|]. split; [reflexivity|]. split; [exact Hdt|].
  destruct (prod func) as [p|]; destruct Hprod as (-> & _ & ->); split; reflexivity.
Qed.

(** X4: when the pre-flight check passes on a tensor state, the first
    evaluation of the right-hand side in "matmul" mode, at [(t[0], z0)],
    succeeds, makes the same evaluations of [X] and [func] as the check
    did, and returns a tensor of the shape of [z0]. *)
Theorem preflight_first_rhs (X : Path A) (func : Func A) (z : Tensor A)
    (t : list A) (it ip : bool) (tr : list (event A)) :
  _check_compatability X func (VTensor z) t = (Ok (it, ip), tr) ->
  exists t0 out,
    head t = Some t0 /\
    forward (mk_VectorField X func it ip "matmul") t0 (VTensor z)
    = (Ok (VTensor out), tr) /\
    shape out = shape z.
Proof.
  intros Hcheck.
  pose proof (check_compatability_is_tensor _ _ _ _ _ _ _ Hcheck) as Hit.
  cbn in Hit. subst it.
  apply check_compatability_ok_inv in Hcheck
    as (d & t0 & t' & cgv & outv & Hd & -> & Hdt & Hstruct & Hprod).
  unfold check_structure in Hstruct.
  destruct cgv as [cg| | |]; try discriminate.
  destruct (prod func) as [p|] eqn:Hp.
  - destruct Hprod as (-> & Hcall & ->).
    destruct outv as [vf| | |]; try discriminate.
    destruct (_check_compatability_per_tensor_prod cg vf z) as [[]|e] eqn:Hper;
      [|discriminate].
    apply per_tensor_prod_spec in Hper as [_ Hshape].
    exists t0, vf. split; [reflexivity|]. split; [|exact Hshape].
    unfold forward. cbn [vf_X vf_func is_prod method]. rewrite Hd, Hp.
    destruct (decide ("matmul" ≠ "matmul")) as [Hn|_]; [contradiction|].
    cbn. rewrite Hdt. cbn. rewrite Hcall. reflexivity.
  - destruct Hprod as (-> & Hcall & ->).
    destruct outv as [sys| | |]; try discriminate.
    destruct (_check_compatability_per_tensor_forward cg sys z) as [[]|e] eqn:Hper;
      [|discriminate].
    apply per_tensor_forward_shapes in Hper
      as (batch & hidden & input & Hz & Hcg & Hsys).
    exists t0, (contract sys cg). split; [reflexivity|].
    destruct (contract_spec sys cg batch hidden input Hsys) as (Hshape & _ & _).
    split; [|rewrite Hshape, Hz; reflexivity].
    rewrite (forward_matmul_steps X func true d t0 (VTensor z) Hd), Hdt, Hcall.
    cbn -[matvec]. rewrite (matvec_spec sys cg batch hidden input Hsys Hcg).
    reflexivity.
Qed.

(** X6: a failing pre-flight check is the outcome of [cdeint]: the same
    exception after the same evaluations, the integrator not called and
    no warning emitted. *)
Theorem cdeint_check_failure (odeint odeint_adjoint : integrator A) (X : Path A)
    (func : Func A) (z0 : value A) (t : list A) (adjoint : bool)
    (vector_field_type : string) (kwargs : gmap string kwval)
    (e : exn) (tr : list (event A)) :
  vector_field_type ∈ ["matmul"; "evaluate"; "derivative"] ->
  _check_compatability X func z0 t = (Err e, tr) ->
  cdeint odeint odeint_adjoint X func z0 t adjoint vector_field_type kwargs = (Err e, tr) /\
  count_odeint tr = 0 /\ warnings_of tr = [] /\ length tr <= 2.
Proof.
  intros Hvft Hcheck. split.
  - unfold cdeint. destruct (decide _) as [Hn|_]; [contradiction|].
    rewrite Hcheck. reflexivity.
  - revert Hcheck. unfold _check_compatability.
    destruct (derivative X) as [d|];
      [|intros Heq; injection Heq as <- <-; cbn; repeat split; lia].
    destruct t as [|t0 t'];
      [intros Heq; injection Heq as <- <-; cbn; repeat split; lia|]. cbn.
    destruct (d t0) as [cg|e0]; cbn;
      [|intros Heq; injection Heq as <- <-; cbn; repeat split; lia].
    destruct (prod func) as [p|]; cbn.
    + destruct (p t0 z0 cg) as [vf|e0]; cbn;
        [|intros Heq; injection Heq as <- <-; cbn; repeat split; lia].
      destruct (check_structure true cg vf z0); cbn; [discriminate|].
      intros Heq; injection Heq as <- <-; cbn; repeat split; lia.
    + destruct (call func t0 z0) as [sys|e0]; cbn;
        [|intros Heq; injection Heq as <- <-; cbn; repeat split; lia].
      destruct (check_structure false cg sys z0); cbn; [discriminate|].
      intros Heq; injection Heq as <- <-; cbn; repeat split; lia.
Qed.

End PreflightFacts.

(** ** What a run of [cdeint] calls and warns about *)

Lemma count_odeint_app {A} (tr1 tr2 : list (event A)) :
  count_odeint (tr1 ++ tr2) = count_odeint tr1 + count_odeint tr2.
Proof.
  induction tr1 as [|ev tr1 IH]; [reflexivity|]. destruct ev; cbn; rewrite ?IH; reflexivity.
Qed.

Lemma warnings_of_app {A} (tr1 tr2 : list (event A)) :
  warnings_of (tr1 ++ tr2) = warnings_of tr1 ++ warnings_of tr2.
Proof.
  induction tr1 as [|ev tr1 IH]; [reflexivity|]. destruct ev; cbn; rewrite ?IH; reflexivity.
Qed.

Lemma evaluation_events_quiet {A} (tr : list (event A)) :
  Forall evaluation_event tr -> count_odeint tr = 0 /\ warnings_of tr = [].
Proof.
  induction 1 as [|ev tr Hev _ [IH1 IH2]]; [split; reflexivity|].
  destruct ev; cbn; try (split; assumption); destruct Hev.
Qed.

Lemma gen_contains_sublist (x : nat) (l gen : list nat) :
  sublist (x :: l) gen ->
  (gen_contains x gen).1 = true /\ sublist l (gen_contains x gen).2.
Proof.
  induction gen as [|y gen IH]; intros Hsub; [inversion Hsub|].
  cbn. destruct (Nat.eqb_spec y x) as [->|Hne]; cbn.
  - split; [reflexivity|]. inversion Hsub as [|? ? ? Hs|? ? ? Hs]; subst; [exact Hs|].
    etransitivity; [|exact Hs]. apply sublist_cons. reflexivity.
  - apply IH. inversion Hsub as [|? ? ? Hs|? ? ? Hs]; subst; [contradiction|exact Hs].
Qed.

Section RunFacts.
Context {A : Type} `{Scalar A}.

Ltac solve_events :=
  cbn; repeat first [apply Forall_nil_2 | apply Forall_cons_2; [exact I|]].

Lemma check_compatability_events (X : Path A) (func : Func A) (z0 : value A) (t : list A) :
  Forall evaluation_event (_check_compatability X func z0 t).2.
Proof.
  unfold _check_compatability.
  destruct (derivative X) as [d|]; [|solve_events].
  destruct t as [|t0 t']; [solve_events|]. cbn.
  destruct (d t0) as [cg|e]; cbn; [|solve_events].
  destruct (prod func) as [p|]; cbn.
  - destruct (p t0 z0 cg) as [vf|e]; cbn; [|solve_events].
    destruct (check_structure true cg vf z0); cbn; solve_events.
  - destruct (call func t0 z0) as [sys|e]; cbn; [|solve_events].
    destruct (check_structure false cg sys z0); cbn; solve_events.
Qed.

Lemma forward_events (self : _VectorField) (s : A) (z : value A) :
  Forall evaluation_event (forward self s z).2.
Proof.
  unfold forward.
  destruct (derivative (vf_X self)) as [d|] eqn:Hd; [|solve_events]. cbn.
  destruct (d s) as [cg|err] eqn:Hds; cbn; [|solve_events].
  destruct (is_prod self).
  - destruct (decide _) as [Hne|Heq]; cbn; [solve_events|].
    destruct (prod (vf_func self)) as [p|]; cbn; [|solve_events].
    destruct (p s z cg); cbn; solve_events.
  - destruct (decide (method self ∈ _)) as [Hin|Hnin].
    + destruct (decide (method self = "evaluate")) as [Hev|Hnev].
      * destruct (evaluate (vf_X self)) as [g|]; cbn; [|solve_events].
        destruct (g s) as [fd|err]; cbn; [|solve_events].
        destruct (torch_cat z fd) as [fi|err]; cbn; [|solve_events].
        destruct (call (vf_func self) s fi); cbn; solve_events.
      * cbn. rewrite Hds. cbn.
        destruct (torch_cat z cg) as [fi|err]; cbn; [|solve_events].
        destruct (call (vf_func self) s fi); cbn; solve_events.
    + cbn. destruct (call (vf_func self) s z) as [vf|err]; cbn; [|solve_events].
      destruct (is_tensor self); cbn.
      * destruct (matvec vf cg); cbn; solve_events.
      * destruct (iter_value vf) as [vfs|err]; cbn; [|solve_events].
        destruct (iter_value cg) as [cgs|err]; cbn; [|solve_events].
        destruct (matvec_each vfs cgs); cbn; solve_events.
Qed.

Lemma run_plan_events (rhs : A -> value A -> M A (value A)) (p : plan A) :
  (forall (s : A) (z : value A), Forall evaluation_event (rhs s z).2) ->
  Forall evaluation_event (run_plan rhs p).2.
Proof.
  intros Hrhs. induction p as [out|e|s z k IH]; cbn; [constructor..|].
  specialize (Hrhs s z). destruct (rhs s z) as [[v|e] tr]; cbn in *; [|exact Hrhs].
  specialize (IH v). destruct (run_plan rhs (k v)) as [r tr']; cbn in *.
  apply Forall_app; split; assumption.
Qed.

Lemma warn_buffers_only_warns (bufs : list Buffer) (gen : list nat) :
  count_odeint (warn_buffers (A:=A) bufs gen) = 0.
Proof.
  revert gen. induction bufs as [|b bufs IH]; intros gen; cbn; [reflexivity|].
  destruct (requires_grad b); [|apply IH].
  destruct (gen_contains _ _) as [[|] rest]; cbn; apply IH.
Qed.

(** The trace of a run that reached the integrator, taken apart. *)
Lemma cdeint_reached (odeint odeint_adjoint : integrator A) (X : Path A)
    (func : Func A) (z0 : value A) (t : list A) (adjoint : bool)
    (vector_field_type : string) (kwargs : gmap string kwval)
    (it ip : bool) (tr1 : list (event A)) (ids : list nat) :
  vector_field_type ∈ ["matmul"; "evaluate"; "derivative"] ->
  _check_compatability X func z0 t = (Ok (it, ip), tr1) ->
  (if adjoint then adjoint_params_ids (default_tolerances kwargs) else Ok []) = Ok ids ->
  count_odeint (cdeint odeint odeint_adjoint X func z0 t adjoint vector_field_type kwargs).2
  = 1 /\
  warnings_of (cdeint odeint odeint_adjoint X func z0 t adjoint vector_field_type kwargs).2
  = if adjoint then warnings_of (warn_buffers (A:=A) (buffers X) ids) else [].
Proof.
  intros Hvft Hcheck Hids.
  rewrite (cdeint_unfold _ _ _ _ _ _ _ _ _ it ip tr1 ids Hvft Hcheck Hids). cbn zeta.
  cbn [snd].
  pose proof (check_compatability_events X func z0 t) as Hev1.
  rewrite Hcheck in Hev1. cbn in Hev1.
  apply evaluation_events_quiet in Hev1 as [Hc1 Hw1].
  set (run := run_plan _ _).
  assert (Hev2 : Forall evaluation_event run.2)
    by (apply run_plan_events; intros s z; apply forward_events).
  apply evaluation_events_quiet in Hev2 as [Hc2 Hw2].
  rewrite !count_odeint_app, !warnings_of_app. cbn [count_odeint warnings_of].
  rewrite Hc1, Hw1, Hc2, Hw2, app_nil_r. cbn [app]. split.
  - destruct adjoint; [rewrite warn_buffers_only_warns|]; reflexivity.
  - destruct adjoint; reflexivity.
Qed.

(** X7: a run of [cdeint] calls the integrator once when the coupling
    mode is recognised, the pre-flight check passes and, with [adjoint],
    [adjoint_params] can be iterated over; otherwise it does not call
    it. *)
Theorem cdeint_calls_integrator_once (odeint odeint_adjoint : integrator A) (X : Path A)
    (func : Func A) (z0 : value A) (t : list A) (adjoint : bool)
    (vector_field_type : string) (kwargs : gmap string kwval) :
  count_odeint (cdeint odeint odeint_adjoint X func z0 t adjoint vector_field_type kwargs).2
  = if decide (vector_field_type ∈ ["matmul"; "evaluate"; "derivative"]) then
      match (_check_compatability X func z0 t).1,
            (if adjoint then adjoint_params_ids (default_tolerances kwargs) else Ok [])
      with
      | Ok _, Ok _ => 1
      | _, _ => 0
      end
    else 0.
Proof.
  destruct (decide _) as [Hvft|Hvft].
  - destruct (_check_compatability X func z0 t) as [[[it ip]|e] tr1] eqn:Hcheck; cbn [fst].
    + destruct (if adjoint then _ else _) as [ids|e] eqn:Hids.
      * apply (cdeint_reached _ _ _ _ _ _ _ _ _ it ip tr1 ids Hvft Hcheck Hids).
      * destruct adjoint; [|discriminate].
        unfold cdeint. destruct (decide _) as [Hn|_]; [contradiction|].
        rewrite Hcheck. cbn. rewrite Hids. cbn. rewrite app_nil_r.
        pose proof (check_compatability_events X func z0 t) as Hev.
        rewrite Hcheck in Hev. apply evaluation_events_quiet in Hev as [Hc _].
        exact Hc.
    + unfold cdeint. destruct (decide _) as [Hn|_]; [contradiction|].
      rewrite Hcheck. cbn.
      pose proof (check_compatability_events X func z0 t) as Hev.
      rewrite Hcheck in Hev. apply evaluation_events_quiet in Hev as [Hc _].
      exact Hc.
  - unfold cdeint. destruct (decide _) as [_|Hy]; [reflexivity|].
    exfalso. apply Hvft. destruct (decide (vector_field_type ∈ ["matmul"; "evaluate"; "derivative"]));
      [assumption|contradiction].
Qed.

Lemma warnings_of_elem (b : nat) (tr : list (event A)) :
  b ∈ warnings_of tr <-> EvWarn b ∈ tr.
Proof.
  induction tr as [|ev tr IH]; cbn.
  - split; intros Hin; inversion Hin.
  - destruct ev; cbn; rewrite ?elem_of_cons, IH;
      try (split; [auto|intros [Heq|?]; [discriminate|assumption]]).
    split; [intros [->|?]; auto|intros [[= ->]|?]; auto].
Qed.

Lemma warn_buffers_default (bufs : list Buffer) :
  warnings_of (warn_buffers (A:=A) bufs []) = differentiable_ids bufs.
Proof.
  unfold differentiable_ids. induction bufs as [|b bufs IH]; [reflexivity|].
  cbn. destruct (requires_grad b); cbn; rewrite IH; reflexivity.
Qed.

Lemma warn_buffers_in_order (bufs : list Buffer) (gen : list nat) :
  sublist (differentiable_ids bufs) gen -> warn_buffers (A:=A) bufs gen = [].
Proof.
  unfold differentiable_ids. revert gen.
  induction bufs as [|b bufs IH]; intros gen Hsub; [reflexivity|].
  cbn in *. destruct (requires_grad b); [|apply IH; exact Hsub].
  cbn in Hsub. apply gen_contains_sublist in Hsub as [Hfound Hrest].
  destruct (gen_contains (buf_id b) gen) as [found rest]. cbn in *. subst found.
  cbn. apply IH. exact Hrest.
Qed.

Lemma adjoint_params_ids_default (kwargs : gmap string kwval) :
  adjoint_params_ids (default_tolerances kwargs)
  = match kwargs !! "adjoint_params" with
    | Some params => iter_ids params
    | None => Ok []
    end.
Proof.
  unfold adjoint_params_ids. rewrite default_tolerances_other by discriminate.
  reflexivity.
Qed.

(** X8: without [adjoint] no warning is emitted and [adjoint_params] is
    not read; with [adjoint], an [adjoint_params] that cannot be iterated
    over makes [cdeint] raise [TypeError] after a passing pre-flight
    check, before the integrator is called. *)
Theorem adjoint_params_only_with_adjoint (odeint odeint_adjoint : integrator A)
    (X : Path A) (func : Func A) (z0 : value A) (t : list A)
    (vector_field_type : string) (kwargs : gmap string kwval) :
  warnings_of (cdeint odeint odeint_adjoint X func z0 t false vector_field_type kwargs).2
  = [] /\
  (forall it ip tr1 params,
     vector_field_type ∈ ["matmul"; "evaluate"; "derivative"] ->
     _check_compatability X func z0 t = (Ok (it, ip), tr1) ->
     kwargs !! "adjoint_params" = Some params ->
     (forall ids, params <> KSeq ids) ->
     cdeint odeint odeint_adjoint X func z0 t true vector_field_type kwargs
     = (Err TypeError, tr1) /\
     count_odeint (cdeint odeint odeint_adjoint X func z0 t false vector_field_type kwargs).2
     = 1).
Proof.
  split.
  - destruct (decide (vector_field_type ∈ ["matmul"; "evaluate"; "derivative"]))
      as [Hvft|Hvft].
    + destruct (_check_compatability X func z0 t) as [[[it ip]|e] tr1] eqn:Hcheck.
      * apply (cdeint_reached odeint odeint_adjoint X func z0 t false _ kwargs
                 it ip tr1 [] Hvft Hcheck eq_refl).
      * unfold cdeint. destruct (decide _) as [Hn|_]; [contradiction|].
        rewrite Hcheck. cbn.
        pose proof (check_compatability_events X func z0 t) as Hev.
        rewrite Hcheck in Hev. apply evaluation_events_quiet in Hev as [_ Hw].
        exact Hw.
    + unfold cdeint. destruct (decide _) as [_|Hy]; [reflexivity|].
      exfalso. apply Hvft.
      destruct (decide (vector_field_type ∈ ["matmul"; "evaluate"; "derivative"]));
        [assumption|contradiction].
  - intros it ip tr1 params Hvft Hcheck Hparams Hnot. split.
    + unfold cdeint. destruct (decide _) as [Hn|_]; [contradiction|].
      rewrite Hcheck. cbn. rewrite adjoint_params_ids_default, Hparams.
      destruct params as [x|ids|n]; cbn; rewrite ?app_nil_r; try reflexivity.
      exfalso. apply (Hnot ids). reflexivity.
    + apply (cdeint_reached odeint odeint_adjoint X func z0 t false _ kwargs
               it ip tr1 [] Hvft Hcheck eq_refl).
Qed.

(** X9: with [adjoint] and no [adjoint_params], a run that passes the
    pre-flight check warns once for each buffer of [X] that requires
    gradients, in the order of [X.buffers()], and for no other. *)
Theorem cdeint_default_warnings (odeint odeint_adjoint : integrator A)
    (X : Path A) (func : Func A) (z0 : value A) (t : list A)
    (vector_field_type : string) (kwargs : gmap string kwval)
    (it ip : bool) (tr1 : list (event A)) :
  vector_field_type ∈ ["matmul"; "evaluate"; "derivative"] ->
  _check_compatability X func z0 t = (Ok (it, ip), tr1) ->
  kwargs !! "adjoint_params" = None ->
  warnings_of (cdeint odeint odeint_adjoint X func z0 t true vector_field_type kwargs).2
  = differentiable_ids (buffers X).
Proof.
  intros Hvft Hcheck Hnone.
  assert (Hids : adjoint_params_ids (default_tolerances kwargs) = Ok [])
    by (rewrite adjoint_params_ids_default, Hnone; reflexivity).
  destruct (cdeint_reached odeint odeint_adjoint X func z0 t true _ kwargs
              it ip tr1 [] Hvft Hcheck Hids) as [_ ->].
  apply warn_buffers_default.
Qed.

(** X10: when [adjoint_params] lists the buffers of [X] that require
    gradients in the order of [X.buffers()], possibly among other
    parameters, no warning is emitted. *)
Theorem cdeint_declared_in_order (odeint odeint_adjoint : integrator A)
    (X : Path A) (func : Func A) (z0 : value A) (t : list A)
    (vector_field_type : string) (kwargs : gmap string kwval)
    (it ip : bool) (tr1 : list (event A)) (ids : list nat) :
  vector_field_type ∈ ["matmul"; "evaluate"; "derivative"] ->
  _check_compatability X func z0 t = (Ok (it, ip), tr1) ->
  kwargs !! "adjoint_params" = Some (KSeq ids) ->
  sublist (differentiable_ids (buffers X)) ids ->
  warnings_of (cdeint odeint odeint_adjoint X func z0 t true vector_field_type kwargs).2
  = [].
Proof.
  intros Hvft Hcheck Hparams Hsub.
  assert (Hids : adjoint_params_ids (default_tolerances kwargs) = Ok ids)
    by (rewrite adjoint_params_ids_default, Hparams; reflexivity).
  destruct (cdeint_reached odeint odeint_adjoint X func z0 t true _ kwargs
              it ip tr1 ids Hvft Hcheck Hids) as [_ ->].
  rewrite (warn_buffers_in_order _ _ Hsub). reflexivity.
Qed.

(** X11: with [adjoint], every buffer of [X] that requires gradients and
    is not among [adjoint_params] is warned about, and whatever is warned
    about is a buffer of [X] that requires gradients. *)
Theorem cdeint_undeclared_warned (odeint odeint_adjoint : integrator A)
    (X : Path A) (func : Func A) (z0 : value A) (t : list A)
    (vector_field_type : string) (kwargs : gmap string kwval)
    (it ip : bool) (tr1 : list (event A)) (ids : list nat) :
  vector_field_type ∈ ["matmul"; "evaluate"; "derivative"] ->
  _check_compatability X func z0 t = (Ok (it, ip), tr1) ->
  kwargs !! "adjoint_params" = Some (KSeq ids) ->
  let warned :=
    warnings_of (cdeint odeint odeint_adjoint X func z0 t true vector_field_type kwargs).2 in
  (forall buffer, buffer ∈ buffers X -> requires_grad buffer = true ->
     buf_id buffer ∉ ids -> buf_id buffer ∈ warned) /\
  (forall b, b ∈ warned ->
     exists buffer, buffer ∈ buffers X /\ buf_id buffer = b /\ requires_grad buffer = true).
Proof.
  intros Hvft Hcheck Hparams warned.
  assert (Hids : adjoint_params_ids (default_tolerances kwargs) = Ok ids)
    by (rewrite adjoint_params_ids_default, Hparams; reflexivity).
  destruct (cdeint_reached odeint odeint_adjoint X func z0 t true _ kwargs
              it ip tr1 ids Hvft Hcheck Hids) as [_ Hw].
  subst warned. rewrite Hw. split.
  - intros buffer Hin Hrg Hnot. apply warnings_of_elem.
    apply warn_buffers_absent; assumption.
  - intros b Hb. apply warnings_of_elem in Hb.
    apply (warn_buffers_sound _ _ _ Hb).
Qed.

End RunFacts.

(** ** Edge cases of the adapter and of the public layout *)

Section EdgeFacts.
Context {A : Type} `{Scalar A}.

(** X12: the result of the integrator can be brought into the public
    layout exactly when it has at least two dimensions; with fewer,
    [permute] is given more dimensions than the tensor has and raises. *)
Theorem to_path_layout_outcome (o : Tensor A) :
  (ndim o < 2 -> to_path_layout (VTensor o) = Err RuntimeError) /\
  (2 <= ndim o ->
   exists p, to_path_layout (VTensor o) = Ok (VTensor p) /\
             wf p /\
             shape p = upto_last 1 (tail (shape o))
                       ++ [hd 0 (shape o); List.last (shape o) 0]).
Proof.
  split.
  - intros Hn. unfold to_path_layout, permute.
    destruct (shape o) as [|n [|m s]] eqn:Hs; unfold ndim in *; rewrite Hs in *;
      cbn in Hn; try lia; reflexivity.
  - intros Hn. unfold ndim in Hn.
    destruct (shape o) as [|T s'] eqn:Hs; [cbn in Hn; lia|].
    assert (Hs' : 1 <= length s') by (cbn in Hn; lia).
    pose proof (shape_split_last s' Hs') as Hsplit.
    destruct (to_path_layout_spec T (mkTensor s' []) o) as (p & Hp & Hlayout).
    { split; [|exact Hs]. cbn [shape]. eauto. }
    destruct Hlayout as (batch & hidden & Hz & Hshape & Hwf & _).
    cbn [shape] in Hz. exists p. split; [exact Hp|]. split; [exact Hwf|].
    rewrite Hshape. cbn [tail hd]. rewrite Hz.
    rewrite (upto_last_app 1) by reflexivity.
    change (T :: batch ++ [hidden]) with ((T :: batch) ++ [hidden]).
    rewrite last_last. reflexivity.
Qed.

Lemma matvec_each_length (vfs cgs outs : list (value A)) :
  matvec_each vfs cgs = Ok outs ->
  length outs = Nat.min (length vfs) (length cgs) /\ Forall is_tensor_value outs.
Proof.
  revert cgs outs. induction vfs as [|vf vfs IH]; intros cgs outs.
  - cbn. intros [= <-]. split; [reflexivity|constructor].
  - destruct cgs as [|cg cgs]; cbn [matvec_each].
    + intros [= <-]. split; [reflexivity|constructor].
    + destruct (matvec vf cg) as [out|e] eqn:Hout; cbn [mbind res_bind]; [|discriminate].
      destruct (matvec_each vfs cgs) as [outs'|e] eqn:Hrest; cbn [mbind res_bind];
        [|discriminate].
      intros [= <-]. destruct (IH _ _ Hrest) as [Hlen Hall].
      split; [cbn; rewrite Hlen; reflexivity|]. constructor; [|exact Hall].
      unfold matvec in Hout. destruct cg as [c| | |]; try discriminate.
      destruct (unsqueeze c (-1)); cbn in Hout; [|discriminate].
      destruct vf as [v| | |]; try discriminate.
      destruct (matmul v _); cbn in Hout; [|discriminate].
      destruct (squeeze _ _); cbn in Hout; [|discriminate].
      injection Hout as <-. exact I.
Qed.

(** X13: in tuple mode the right-hand side pairs the items of the vector
    field with those of the control gradient as [zip] does: what it
    returns is a tuple of tensors as long as the shorter of the two. *)
Theorem forward_tuple_zip (X : Path A) (func : Func A)
    (X_derivative : A -> res (value A)) (t : A) (z out : value A)
    (tr : list (event A)) :
  derivative X = Some X_derivative ->
  forward (mk_VectorField X func false false "matmul") t z = (Ok out, tr) ->
  exists control_gradient vector_field cgs vfs outs,
    X_derivative t = Ok control_gradient /\
    call func t z = Ok vector_field /\
    iter_value control_gradient = Ok cgs /\
    iter_value vector_field = Ok vfs /\
    out = VTuple outs /\
    length outs = Nat.min (length vfs) (length cgs) /\
    Forall is_tensor_value outs.
Proof.
  intros Hd. rewrite (forward_matmul_steps X func false X_derivative t z Hd).
  cbn -[matvec_each iter_value].
  destruct (X_derivative t) as [cgv|e]; cbn -[matvec_each iter_value]; [|discriminate].
  destruct (call func t z) as [vfv|e]; cbn -[matvec_each iter_value]; [|discriminate].
  destruct (iter_value vfv) as [vfs|e] eqn:Hvfs; cbn -[matvec_each iter_value];
    [|discriminate].
  destruct (iter_value cgv) as [cgs|e] eqn:Hcgs; cbn -[matvec_each iter_value];
    [|discriminate].
  destruct (matvec_each vfs cgs) as [outs|e] eqn:Hout; cbn; [|discriminate].
  intros [= <- _]. destruct (matvec_each_length _ _ _ Hout) as [Hlen Hall].
  exists cgv, vfv, cgs, vfs, outs. repeat split; assumption.
Qed.

(** X14: in the "evaluate" and "derivative" modes only a tensor state can
    be concatenated with the path: for a tuple, a list or any other state
    the right-hand side raises and [func] is not called. *)
Theorem forward_concat_needs_tensor (X : Path A) (func : Func A) (it : bool)
    (vector_field_type : string) (t : A) (z : value A) :
  vector_field_type ∈ ["evaluate"; "derivative"] ->
  ~ is_tensor_value z ->
  (exists e, (forward (mk_VectorField X func it false vector_field_type) t z).1 = Err e) /\
  Forall not_func_call (forward (mk_VectorField X func it false vector_field_type) t z).2.
Proof.
  intros Hvft Hz.
  assert (Hcat : forall data, torch_cat z data = Err TypeError).
  { intros data. destruct z; try reflexivity. exfalso. apply Hz. exact I. }
  unfold forward. cbn [vf_X vf_func is_prod method].
  destruct (derivative X) as [d|] eqn:Hd; [|split; [eexists; reflexivity|constructor]].
  cbn. destruct (d t) as [cg|e] eqn:Hdt; cbn;
    [|split; [eexists; reflexivity|repeat constructor]].
  destruct (decide (vector_field_type ∈ ["evaluate"; "derivative"])) as [_|Hn];
    [|contradiction].
  destruct (decide (vector_field_type = "evaluate")) as [Hev|Hnev].
  - destruct (evaluate X) as [g|]; cbn;
      [|split; [eexists; reflexivity|repeat constructor]].
    destruct (g t) as [fd|e]; cbn; [|split; [eexists; reflexivity|repeat constructor]].
    rewrite Hcat. cbn. split; [eexists; reflexivity|repeat constructor].
  - cbn. rewrite Hdt. cbn. rewrite Hcat. cbn.
    split; [eexists; reflexivity|repeat constructor].
Qed.

End EdgeFacts.

(** ** The structural check in multi-state mode *)

Section MultiStateFacts.
Context {A : Type} `{Scalar A}.

Lemma check_elements_forward_iff (cgs systems z0s : list (value A)) :
  length z0s = length cgs -> length z0s = length systems ->
  check_elements_forward cgs systems z0s = Ok tt <->
  exists cs os zs : list (Tensor A),
    cgs = map VTensor cs /\ systems = map VTensor os /\ z0s = map VTensor zs /\
    Forall3 (fun c o z => _check_compatability_per_tensor_forward c o z = Ok tt) cs os zs.
Proof.
  revert systems z0s. induction cgs as [|cg cgs IH]; intros systems z0s Hl1 Hl2.
  - destruct z0s; [|discriminate]. destruct systems; [|discriminate].
    split; [intros _; exists [], [], []; repeat split; constructor|reflexivity].
  - destruct z0s as [|z0 z0s]; [discriminate|].
    destruct systems as [|sys systems]; [discriminate|].
    injection Hl1 as Hl1. injection Hl2 as Hl2. cbn [check_elements_forward].
    split.
    + destruct cg as [c| | |]; try discriminate.
      destruct sys as [o| | |]; try discriminate.
      destruct z0 as [z| | |]; try discriminate. cbn [as_tensor mbind res_bind].
      destruct (_check_compatability_per_tensor_forward c o z) as [[]|e] eqn:Hper;
        [|discriminate].
      cbn [mbind res_bind]. intros Hrest.
      apply (IH _ _ Hl1 Hl2) in Hrest as (cs & os & zs & -> & -> & -> & Hall).
      exists (c :: cs), (o :: os), (z :: zs). repeat split. constructor; assumption.
    + intros (cs & os & zs & Hc & Ho & Hz & Hall).
      destruct Hall as [|c o z cs os zs Hper Hall]; try discriminate.
      injection Hc as -> ->. injection Ho as -> ->. injection Hz as -> ->.
      cbn [as_tensor mbind res_bind]. rewrite Hper. cbn [mbind res_bind].
      apply (IH _ _ Hl1 Hl2). exists cs, os, zs. repeat split. exact Hall.
Qed.

Lemma check_elements_prod_iff (cgs vfs z0s : list (value A)) :
  length z0s = length cgs -> length z0s = length vfs ->
  check_elements_prod cgs vfs z0s = Ok tt <->
  exists cs os zs : list (Tensor A),
    cgs = map VTensor cs /\ vfs = map VTensor os /\ z0s = map VTensor zs /\
    Forall3 (fun c o z => _check_compatability_per_tensor_prod c o z = Ok tt) cs os zs.
Proof.
  revert vfs z0s. induction cgs as [|cg cgs IH]; intros vfs z0s Hl1 Hl2.
  - destruct z0s; [|discriminate]. destruct vfs; [|discriminate].
    split; [intros _; exists [], [], []; repeat split; constructor|reflexivity].
  - destruct z0s as [|z0 z0s]; [discriminate|].
    destruct vfs as [|vf vfs]; [discriminate|].
    injection Hl1 as Hl1. injection Hl2 as Hl2. cbn [check_elements_prod].
    split.
    + destruct cg as [c| | |]; try discriminate.
      destruct vf as [o| | |]; try discriminate.
      destruct z0 as [z| | |]; try discriminate. cbn [as_tensor mbind res_bind].
      destruct (_check_compatability_per_tensor_prod c o z) as [[]|e] eqn:Hper;
        [|discriminate].
      cbn [mbind res_bind]. intros Hrest.
      apply (IH _ _ Hl1 Hl2) in Hrest as (cs & os & zs & -> & -> & -> & Hall).
      exists (c :: cs), (o :: os), (z :: zs). repeat split. constructor; assumption.
    + intros (cs & os & zs & Hc & Ho & Hz & Hall).
      destruct Hall as [|c o z cs os zs Hper Hall]; try discriminate.
      injection Hc as -> ->. injection Ho as -> ->. injection Hz as -> ->.
      cbn [as_tensor mbind res_bind]. rewrite Hper. cbn [mbind res_bind].
      apply (IH _ _ Hl1 Hl2). exists cs, os, zs. repeat split. exact Hall.
Qed.

Lemma check_structure_multi_spec (is_prod : bool) (control_gradient out z0 : value A) :
  check_structure is_prod control_gradient out z0 = Ok false <->
  exists cs os zs : list (Tensor A),
    seq_items control_gradient = Some (map VTensor cs) /\
    seq_items out = Some (map VTensor os) /\
    seq_items z0 = Some (map VTensor zs) /\
    Forall3 (fun c o z => per_tensor_check is_prod c o z = Ok tt) cs os zs.
Proof.
  assert (Hlen : forall (cs os zs : list (Tensor A)) P, Forall3 P cs os zs ->
            length (map (@VTensor A) zs) = length (map (@VTensor A) cs) /\
            length (map (@VTensor A) zs) = length (map (@VTensor A) os)).
  { intros cs os zs P Hall. rewrite !length_map.
    induction Hall; cbn; [split; reflexivity|]. lia. }
  split.
  - intros Hok. pose proof (check_structure_is_tensor _ _ _ _ _ Hok) as Hmode.
    unfold check_structure in Hok.
    assert (Hseq : exists z0s, seq_items z0 = Some z0s /\
      match seq_items control_gradient with
      | Some cgs =>
          if decide (length z0s ≠ length cgs) then Err (ValueError DerivativeLength)
          else if is_prod then
            match seq_items out with
            | Some vfs =>
                if decide (length z0s ≠ length vfs) then Err (ValueError ProdLength)
                else _ ← check_elements_prod cgs vfs z0s; Ok false
            | None => Err (ValueError ProdNotTuple)
            end
          else
            match seq_items out with
            | Some systems =>
                if decide (length z0s ≠ length systems) then Err (ValueError FuncLength)
                else _ ← check_elements_forward cgs systems z0s; Ok false
            | None => Err (ValueError FuncNotTuple)
            end
      | None => Err (ValueError DerivativeNotTuple)
      end = Ok false).
    { destruct z0 as [z|z0s|z0s|]; try discriminate; exists z0s; split;
        try reflexivity; exact Hok. }
    clear Hok. destruct Hseq as (z0s & Hz0 & Hok).
    destruct (seq_items control_gradient) as [cgs|]; [|discriminate].
    destruct (decide (length z0s ≠ length cgs)) as [?|Hl1]; [discriminate|].
    apply dec_stable in Hl1.
    destruct (seq_items out) as [outs|]; [|destruct is_prod; discriminate].
    destruct is_prod.
    + destruct (decide (length z0s ≠ length outs)) as [?|Hl2]; [discriminate|].
      apply dec_stable in Hl2.
      destruct (check_elements_prod cgs outs z0s) as [[]|e] eqn:Hel; [|discriminate].
      apply (check_elements_prod_iff _ _ _ Hl1 Hl2) in Hel
        as (cs & os & zs & -> & -> & -> & Hall).
      exists cs, os, zs. repeat split; try assumption.
    + destruct (decide (length z0s ≠ length outs)) as [?|Hl2]; [discriminate|].
      apply dec_stable in Hl2.
      destruct (check_elements_forward cgs outs z0s) as [[]|e] eqn:Hel; [|discriminate].
      apply (check_elements_forward_iff _ _ _ Hl1 Hl2) in Hel
        as (cs & os & zs & -> & -> & -> & Hall).
      exists cs, os, zs. repeat split; try assumption.
  - intros (cs & os & zs & Hcg & Hout & Hz0 & Hall).
    destruct (Hlen _ _ _ _ Hall) as [Hl1 Hl2].
    assert (Hbody :
      match seq_items control_gradient with
      | Some cgs =>
          if decide (length (map (@VTensor A) zs) ≠ length cgs)
          then Err (ValueError DerivativeLength)
          else if is_prod then
            match seq_items out with
            | Some vfs =>
                if decide (length (map (@VTensor A) zs) ≠ length vfs)
                then Err (ValueError ProdLength)
                else _ ← check_elements_prod cgs vfs (map VTensor zs); Ok false
            | None => Err (ValueError ProdNotTuple)
            end
          else
            match seq_items out with
            | Some systems =>
                if decide (length (map (@VTensor A) zs) ≠ length systems)
                then Err (ValueError FuncLength)
                else _ ← check_elements_forward cgs systems (map VTensor zs); Ok false
            | None => Err (ValueError FuncNotTuple)
            end
      | None => Err (ValueError DerivativeNotTuple)
      end = Ok false).
    { rewrite Hcg, Hout.
      destruct (decide (length (map (@VTensor A) zs) ≠ length (map (@VTensor A) cs)))
        as [Hn|_]; [contradiction|].
      destruct (decide (length (map (@VTensor A) zs) ≠ length (map (@VTensor A) os)))
        as [Hn|_]; [contradiction|].
      destruct is_prod.
      - replace (check_elements_prod (map VTensor cs) (map VTensor os) (map VTensor zs))
          with (Ok tt : res unit); [reflexivity|].
        symmetry. apply (check_elements_prod_iff _ _ _ Hl1 Hl2).
        exists cs, os, zs. repeat split. exact Hall.
      - replace (check_elements_forward (map VTensor cs) (map VTensor os) (map VTensor zs))
          with (Ok tt : res unit); [reflexivity|].
        symmetry. apply (check_elements_forward_iff _ _ _ Hl1 Hl2).
        exists cs, os, zs. repeat split. exact Hall. }
    unfold check_structure.
    destruct z0 as [z|z0s|z0s|]; try discriminate;
      cbn in Hz0; injection Hz0 as ->; exact Hbody.
Qed.

(** X15: the structural check reports multi-state mode exactly when
    [z0], the control gradient and the output of [func] (or [func.prod])
    are tuples or lists of tensors, of one length, whose corresponding
    items pass the per-tensor check. *)
Theorem check_structure_multi_iff (is_prod : bool) (control_gradient out z0 : value A) :
  check_structure is_prod control_gradient out z0 = Ok false <->
  exists cs os zs : list (Tensor A),
    seq_items control_gradient = Some (map VTensor cs) /\
    seq_items out = Some (map VTensor os) /\
    seq_items z0 = Some (map VTensor zs) /\
    Forall3 (fun c o z => per_tensor_check is_prod c o z = Ok tt) cs os zs.
Proof. apply check_structure_multi_spec. Qed.

Lemma seq_items_iter (v : value A) (l : list (value A)) :
  seq_items v = Some l -> iter_value v = Ok l.
Proof. destruct v; cbn; congruence. Qed.

(** X5: when the pre-flight check passes on a tuple or list state, the
    first evaluation of the right-hand side in "matmul" mode, at
    [(t[0], z0)], succeeds, makes the same evaluations of [X] and [func]
    as the check did, and returns one tensor for each component of [z0],
    of the shape of that component. *)
Theorem preflight_first_rhs_multi (X : Path A) (func : Func A) (z0 : value A)
    (t : list A) (ip : bool) (tr : list (event A)) :
  _check_compatability X func z0 t = (Ok (false, ip), tr) ->
  exists t0 zs out outs,
    head t = Some t0 /\
    seq_items z0 = Some (map VTensor zs) /\
    forward (mk_VectorField X func false ip "matmul") t0 z0 = (Ok out, tr) /\
    seq_items out = Some (map VTensor outs) /\
    Forall2 (fun z o => shape o = shape z) zs outs.
Proof.
  intros Hcheck.
  apply check_compatability_ok_inv in Hcheck
    as (d & t0 & t' & cgv & outv & Hd & -> & Hdt & Hstruct & Hprod).
  apply check_structure_multi_spec in Hstruct as (cs & os & zs & Hcg & Hout & Hz0 & Hall).
  exists t0, zs. destruct (prod func) as [p|] eqn:Hp.
  - destruct Hprod as (-> & Hcall & ->). exists outv, os.
    split; [reflexivity|]. split; [exact Hz0|]. split; [|split; [exact Hout|]].
    + unfold forward. cbn [vf_X vf_func is_prod method]. rewrite Hd, Hp.
      destruct (decide ("matmul" ≠ "matmul")) as [Hn|_]; [contradiction|].
      cbn. rewrite Hdt. cbn. rewrite Hcall. reflexivity.
    + clear -Hall. induction Hall as [|c o z cs os zs Hper _ IH]; constructor; [|exact IH].
      cbn in Hper. apply per_tensor_prod_spec in Hper as [_ Hshape]. exact Hshape.
  - destruct Hprod as (-> & Hcall & ->).
    exists (VTuple (map VTensor (zip_with contract os cs))), (zip_with contract os cs).
    split; [reflexivity|]. split; [exact Hz0|]. split; [|split; [reflexivity|]].
    + rewrite (forward_matmul_steps X func false d t0 z0 Hd), Hdt, Hcall.
      cbn -[matvec_each iter_value].
      rewrite (seq_items_iter _ _ Hout). cbn -[matvec_each iter_value].
      rewrite (seq_items_iter _ _ Hcg). cbn -[matvec_each].
      rewrite matvec_each_spec; [reflexivity|].
      clear -Hall. induction Hall as [|c o z cs os zs Hper _ IH]; constructor; [|exact IH].
      cbn in Hper. apply per_tensor_forward_shapes in Hper
        as (batch & hidden & input & _ & Hc & Ho).
      exists batch, hidden, input. split; assumption.
    + clear -Hall. induction Hall as [|c o z cs os zs Hper _ IH]; [constructor|].
      cbn [zip_with]. constructor; [|exact IH].
      cbn in Hper. apply per_tensor_forward_shapes in Hper
        as (batch & hidden & input & Hz & _ & Ho).
      destruct (contract_spec o c batch hidden input Ho) as (Hshape & _ & _).
      rewrite Hshape, Hz. reflexivity.
Qed.

End MultiStateFacts.

(** ** The vector field of the tests *)

Section TestFuncFacts.
Context {A : Type} `{Scalar A}.
Variable sigmoid : A -> A.

Lemma broadcast_column_row (h i : nat) :
  broadcast_shapes [1; h; 1] [1; 1; i] = Some [1; h; i].
Proof.
  unfold broadcast_shapes. cbn.
  assert (H1 : broadcast_dim 1 i = Some i).
  { unfold broadcast_dim. destruct (Nat.eqb_spec 1 i) as [<-|_]; reflexivity. }
  assert (H2 : broadcast_dim h 1 = Some h).
  { unfold broadcast_dim. destruct (h =? 1); reflexivity. }
  rewrite H1, H2. reflexivity.
Qed.

Lemma test_func_forward_spec (input hidden : nat) (rand : list A) (t : A) (z : Tensor A) :
  let self := TestTricks.__init__ input hidden rand in
  (shape z <> [1; hidden] ->
   TestTricks.forward sigmoid self t (VTensor z) = Err TestTricks.AssertionError) /\
  (shape z = [1; hidden] -> wf z ->
   exists out,
     TestTricks.forward sigmoid self t (VTensor z) = Ok (VTensor out) /\
     shape out = [1; hidden; input] /\
     (forall r l, r < hidden -> l < input ->
        get out [0; r; l]
        = sadd (sigmoid (get z [0; r])) (get (TestTricks.variable self) [0; 0; l])) /\
     (forall cg : Tensor A, shape cg = [1; input] ->
        _check_compatability_per_tensor_forward cg out z = Ok tt)).
Proof.
  intros self. split.
  - intros Hne. unfold TestTricks.forward. cbn [TestTricks.hidden_size self TestTricks.__init__].
    destruct (decide _) as [_|Heq]; [reflexivity|]. exfalso. apply Heq. exact Hne.
  - intros Hz Hwf. unfold TestTricks.forward.
    cbn [TestTricks.hidden_size TestTricks.input_size TestTricks.variable self
         TestTricks.__init__].
    destruct (decide (shape z ≠ [1; hidden])) as [Hne|_]; [contradiction|].
    cbn zeta. rewrite unsqueeze_last. cbn [mbind res_bind shape data].
    unfold TestTricks.add. cbn [shape]. rewrite Hz. cbn [app].
    rewrite broadcast_column_row. cbn [mbind res_bind shape].
    destruct (decide (shape (build _ _) ≠ _)) as [Hne|_];
      [exfalso; apply Hne; reflexivity|].
    eexists. split; [reflexivity|]. split; [reflexivity|]. split.
    + intros r l Hr Hl. rewrite get_build by (repeat constructor; lia).
      f_equal.
      * unfold bcast_idx. cbn.
        assert (Hr' : (if hidden =? 1 then 0 else r) = r)
          by (destruct (Nat.eqb_spec hidden 1); lia).
        rewrite Hr'. unfold get. cbn [shape data Idx.offset Idx.numel fold_right].
        rewrite Hz. cbn [Idx.offset Idx.numel fold_right].
        replace (r * 1 + 0) with r by lia.
        replace (0 * (hidden * 1) + r) with r by lia.
        assert (Hlen : r < length (data z)).
        { unfold wf in Hwf. rewrite Hwf, Hz. cbn. lia. }
        rewrite (nth_indep _ szero (sigmoid szero)) by (rewrite length_map; exact Hlen).
        apply (map_nth sigmoid).
      * unfold bcast_idx. cbn.
        assert (Hl' : (if input =? 1 then 0 else l) = l)
          by (destruct (Nat.eqb_spec input 1); lia).
        rewrite Hl'. reflexivity.
    + intros cg Hcg. apply per_tensor_forward_shapes.
      exists [1], hidden, input. repeat split; assumption.
Qed.

(** X16: the vector field [_Func] of the tests, on a state of shape
    [(1, hidden_size)], returns the tensor of shape
    [(1, hidden_size, input_size)] with entries
    [sigmoid(z[0, r]) + variable[0, 0, l]]: neither assertion fails, and
    the result passes the per-tensor compatibility check against every
    control gradient of shape [(1, input_size)].  On a tensor of another
    shape the first assertion fails. *)
Theorem test_func_forward (input hidden : nat) (rand : list A) (t : A) (z : Tensor A) :
  let self := TestTricks.__init__ input hidden rand in
  (shape z <> [1; hidden] ->
   TestTricks.forward sigmoid self t (VTensor z) = Err TestTricks.AssertionError) /\
  (shape z = [1; hidden] -> wf z ->
   exists out,
     TestTricks.forward sigmoid self t (VTensor z) = Ok (VTensor out) /\
     shape out = [1; hidden; input] /\
     (forall r l, r < hidden -> l < input ->
        get out [0; r; l]
        = sadd (sigmoid (get z [0; r])) (get (TestTricks.variable self) [0; 0; l])) /\
     (forall cg : Tensor A, shape cg = [1; input] ->
        _check_compatability_per_tensor_forward cg out z = Ok tt)).
Proof. apply test_func_forward_spec. Qed.

(** X17: [test_grad_paths]: with the vector field [_Func], a state of
    shape [(1, hidden_size)] and a path whose derivative at [t[0]] has
    shape [(1, input_size)], the pre-flight check passes, and when the
    integrator returns the times first, [cdeint] returns a tensor of
    shape [(1, len(t), hidden_size)], as the test asserts. *)
Theorem test_grad_paths_shape (odeint odeint_adjoint : integrator A) (X : Path A)
    (X_derivative : A -> res (value A)) (input hidden : nat) (rand : list A)
    (z cg raw : Tensor A) (t0 : A) (t' : list A) (adjoint : bool)
    (kwargs : gmap string kwval) (ids : list nat) (tr2 : list (event A)) :
  let func := TestTricks.as_func sigmoid (TestTricks.__init__ input hidden rand) in
  let t := t0 :: t' in
  derivative X = Some X_derivative -> X_derivative t0 = Ok (VTensor cg) ->
  shape cg = [1; input] -> shape z = [1; hidden] -> wf z ->
  (if adjoint then adjoint_params_ids (default_tolerances kwargs) else Ok []) = Ok ids ->
  run_plan (forward (mk_VectorField X func true false "matmul"))
    ((if adjoint then odeint_adjoint else odeint) (VTensor z) t (default_tolerances kwargs))
  = (Ok (VTensor raw), tr2) ->
  shape raw = length t :: shape z ->
  _check_compatability X func (VTensor z) t
  = (Ok (true, false), [EvDerivative t0; EvFunc t0 (VTensor z)]) /\
  exists out tr,
    cdeint odeint odeint_adjoint X func (VTensor z) t adjoint "matmul" kwargs
    = (Ok (VTensor out), tr) /\
    shape out = [1; length t; hidden].
Proof.
  intros func t Hd Hdt Hcg Hz Hwf Hids Hrun Hraw.
  destruct (test_func_forward_spec input hidden rand t0 z) as [_ Hfwd].
  destruct (Hfwd Hz Hwf) as (sys & Hcall & Hsys & _ & _).
  assert (Hcheck : _check_compatability X func (VTensor z) t
                   = (Ok (true, false), [EvDerivative t0; EvFunc t0 (VTensor z)])).
  { apply (check_compatability_well_formed X func X_derivative z cg sys t0 t'
             [1] hidden input); try assumption; reflexivity. }
  split; [exact Hcheck|].
  assert (Hvft : "matmul" ∈ ["matmul"; "evaluate"; "derivative"]) by left.
  rewrite (cdeint_unfold _ _ _ _ _ _ _ _ _ true false _ ids Hvft Hcheck Hids).
  cbn zeta. fold func t. rewrite Hrun. cbn [fst snd mbind res_bind].
  destruct (to_path_layout_spec (length t) z raw) as (out & Hout & Hlayout).
  { split; [exists [1], hidden; exact Hz|exact Hraw]. }
  unfold reshape_output. rewrite Hout.
  destruct Hlayout as (batch & hidden' & Hz' & Hshape & _).
  exists out. eexists. split; [reflexivity|].
  rewrite Hshape. rewrite Hz in Hz'.
  change [1; hidden] with ([1] ++ [hidden]) in Hz'.
  apply app_inj_tail in Hz' as [<- <-]. reflexivity.
Qed.

End TestFuncFacts.

(** ** Instances of the further results *)

Lemma per_tensor_forward_failures_witness :
  is_shape_error IndexError = true \/
  (IndexError = IndexError /\
   upto_last 1 [2] = upto_last 1 [3] /\
   upto_last 2 [3] = upto_last 1 [3] /\
   (ndim (mkTensor [3] [4; 5; 6]%Z) < 2 \/ ndim Sample.z_flat = 0 \/
    ndim (mkTensor [2] [0; 1]%Z) = 0)).
Proof.
  exact (per_tensor_forward_failures (mkTensor [2] [0; 1]%Z) (mkTensor [3] [4; 5; 6]%Z)
           Sample.z_flat IndexError eq_refl).
Defined.

Lemma preflight_evaluations_witness :
  exists X_derivative t0 cg,
    derivative Sample.X = Some X_derivative /\ head [0; 9]%Z = Some t0 /\
    X_derivative t0 = Ok cg /\
    true = match prod Sample.func_prod with Some _ => true | None => false end /\
    [EvDerivative 0%Z; EvProd 0%Z (VTensor Sample.z0) (VTensor (Sample.dX 0))]
    = [EvDerivative t0;
       if true then EvProd t0 (VTensor Sample.z0) cg else EvFunc t0 (VTensor Sample.z0)].
Proof.
  exact (preflight_evaluations Sample.X Sample.func_prod (VTensor Sample.z0) [0; 9]%Z
           true true _ eq_refl).
Defined.

Lemma preflight_first_rhs_witness :
  exists t0 out,
    head [0; 9]%Z = Some t0 /\
    forward (mk_VectorField Sample.X Sample.func true false "matmul") t0 (VTensor Sample.z0)
    = (Ok (VTensor out), [EvDerivative 0%Z; EvFunc 0%Z (VTensor Sample.z0)]) /\
    shape out = shape Sample.z0.
Proof.
  exact (preflight_first_rhs Sample.X Sample.func Sample.z0 [0; 9]%Z true false _ eq_refl).
Defined.

Lemma cdeint_check_failure_witness :
  cdeint Sample.odeint Sample.odeint Sample.X_flat Sample.func_flat
         (VTensor Sample.z_flat) [0; 9]%Z true "matmul" ∅
  = (Err IndexError, [EvDerivative 0%Z; EvFunc 0%Z (VTensor Sample.z_flat)]) /\
  count_odeint [EvDerivative 0%Z; EvFunc 0%Z (VTensor Sample.z_flat)] = 0 /\
  warnings_of [EvDerivative 0%Z; EvFunc 0%Z (VTensor Sample.z_flat)] = [] /\
  length [EvDerivative 0%Z; EvFunc 0%Z (VTensor Sample.z_flat)] <= 2.
Proof.
  apply cdeint_check_failure.
  - left.
  - reflexivity.
Defined.

Lemma adjoint_params_only_with_adjoint_witness :
  let kwargs : gmap string kwval := {[ "adjoint_params" := KFloat (mkDec 1 0) ]} in
  cdeint Sample.odeint Sample.odeint Sample.X Sample.func (VTensor Sample.z0)
         [0; 9]%Z true "matmul" kwargs
  = (Err TypeError, [EvDerivative 0%Z; EvFunc 0%Z (VTensor Sample.z0)]) /\
  count_odeint (cdeint Sample.odeint Sample.odeint Sample.X Sample.func (VTensor Sample.z0)
                       [0; 9]%Z false "matmul" kwargs).2 = 1.
Proof.
  intros kwargs.
  destruct (adjoint_params_only_with_adjoint Sample.odeint Sample.odeint Sample.X
              Sample.func (VTensor Sample.z0) [0; 9]%Z "matmul" kwargs) as [_ Hraise].
  apply (Hraise true false _ (KFloat (mkDec 1 0))).
  - left.
  - reflexivity.
  - reflexivity.
  - discriminate.
Defined.

Lemma cdeint_default_warnings_witness :
  warnings_of (cdeint Sample.odeint Sample.odeint Sample.X Sample.func (VTensor Sample.z0)
                      [0; 9]%Z true "matmul" ∅).2
  = [1; 2].
Proof.
  apply (cdeint_default_warnings Sample.odeint Sample.odeint Sample.X Sample.func
           (VTensor Sample.z0) [0; 9]%Z "matmul" ∅ true false
           [EvDerivative 0%Z; EvFunc 0%Z (VTensor Sample.z0)]).
  - left.
  - reflexivity.
  - reflexivity.
Defined.

Lemma cdeint_declared_in_order_witness :
  warnings_of (cdeint Sample.odeint Sample.odeint Sample.X Sample.func (VTensor Sample.z0)
                      [0; 9]%Z true "matmul"
                      {[ "adjoint_params" := KSeq [5; 1; 6; 2] ]}).2
  = [].
Proof.
  apply (cdeint_declared_in_order Sample.odeint Sample.odeint Sample.X Sample.func
           (VTensor Sample.z0) [0; 9]%Z "matmul" _ true false
           [EvDerivative 0%Z; EvFunc 0%Z (VTensor Sample.z0)] [5; 1; 6; 2]).
  - left.
  - reflexivity.
  - reflexivity.
  - apply sublist_cons, sublist_skip, sublist_cons, sublist_skip, sublist_nil.
Defined.

Lemma cdeint_undeclared_warned_witness :
  1 ∈ warnings_of
        (cdeint Sample.odeint Sample.odeint Sample.X Sample.func (VTensor Sample.z0)
                [0; 9]%Z true "matmul" {[ "adjoint_params" := KSeq [2] ]}).2.
Proof.
  destruct (cdeint_undeclared_warned Sample.odeint Sample.odeint Sample.X Sample.func
              (VTensor Sample.z0) [0; 9]%Z "matmul" {[ "adjoint_params" := KSeq [2] ]}
              true false [EvDerivative 0%Z; EvFunc 0%Z (VTensor Sample.z0)] [2])
    as [Hwarned _].
  - left.
  - reflexivity.
  - reflexivity.
  - apply (Hwarned (mkBuffer 1 true)).
    + left.
    + reflexivity.
    + cbn. intros Hin. apply elem_of_cons in Hin as [Hin|Hin]; [discriminate|inversion Hin].
Defined.

Lemma to_path_layout_outcome_witness :
  to_path_layout (VTensor Sample.z_flat) = Err RuntimeError /\
  exists p, to_path_layout (VTensor (Sample.stack 2 Sample.z0)) = Ok (VTensor p) /\
            wf p /\ shape p = [1; 2; 3].
Proof.
  split.
  - apply (to_path_layout_outcome Sample.z_flat). cbn. lia.
  - apply (to_path_layout_outcome (Sample.stack 2 Sample.z0)). cbn. lia.
Defined.

Lemma forward_tuple_zip_witness :
  exists control_gradient vector_field cgs vfs outs,
    (fun t : Z => Ok (VList [VTensor (Sample.dX t); VTensor (Sample.dX t)])) 2%Z
    = Ok control_gradient /\
    call Sample.func3 2%Z (VTuple [VTensor Sample.z0; VTensor Sample.z0]) = Ok vector_field /\
    iter_value control_gradient = Ok cgs /\
    iter_value vector_field = Ok vfs /\
    VTuple [VTensor (mkTensor [1; 3] [4; 10; 16]%Z); VTensor (mkTensor [1; 3] [4; 10; 16]%Z)]
    = VTuple outs /\
    length outs = Nat.min (length vfs) (length cgs) /\
    Forall is_tensor_value outs.
Proof.
  apply (forward_tuple_zip Sample.X2 Sample.func3 _ 2%Z
           (VTuple [VTensor Sample.z0; VTensor Sample.z0]) _
           [EvDerivative 2%Z; EvFunc 2%Z (VTuple [VTensor Sample.z0; VTensor Sample.z0])]).
  - reflexivity.
  - reflexivity.
Defined.

Lemma forward_concat_needs_tensor_witness :
  (exists e, (forward (mk_VectorField Sample.X Sample.func_echo false false "evaluate") 2%Z
                      (VTuple [VTensor Sample.z0])).1 = Err e) /\
  Forall not_func_call
    (forward (mk_VectorField Sample.X Sample.func_echo false false "evaluate") 2%Z
             (VTuple [VTensor Sample.z0])).2.
Proof.
  apply forward_concat_needs_tensor.
  - left.
  - intros [].
Defined.

Lemma preflight_first_rhs_multi_witness :
  exists t0 zs out outs,
    head [0; 9]%Z = Some t0 /\
    seq_items (VList [VTensor Sample.z0; VTensor Sample.z0]) = Some (map VTensor zs) /\
    forward (mk_VectorField Sample.X2 Sample.func2 false false "matmul") t0
            (VList [VTensor Sample.z0; VTensor Sample.z0])
    = (Ok out, [EvDerivative 0%Z;
                EvFunc 0%Z (VList [VTensor Sample.z0; VTensor Sample.z0])]) /\
    seq_items out = Some (map VTensor outs) /\
    Forall2 (fun z o => shape o = shape z) zs outs.
Proof.
  exact (preflight_first_rhs_multi Sample.X2 Sample.func2
           (VList [VTensor Sample.z0; VTensor Sample.z0]) [0; 9]%Z false _ eq_refl).
Defined.

Lemma test_func_forward_witness :
  TestTricks.forward Z.succ (TestTricks.__init__ 3 3 [10; 20; 30]%Z) 0%Z
                     (VTensor Sample.z_flat)
  = Err TestTricks.AssertionError /\
  exists out,
    TestTricks.forward Z.succ (TestTricks.__init__ 3 3 [10; 20; 30]%Z) 0%Z
                       (VTensor Sample.z0)
    = Ok (VTensor out) /\
    shape out = [1; 3; 3].
Proof.
  destruct (test_func_forward Z.succ 3 3 [10; 20; 30]%Z 0%Z Sample.z_flat) as [Hfail _].
  destruct (test_func_forward Z.succ 3 3 [10; 20; 30]%Z 0%Z Sample.z0) as [_ Hpass].
  split; [apply Hfail; discriminate|].
  destruct (Hpass eq_refl eq_refl) as (out & Hout & Hshape & _).
  exists out. split; assumption.
Defined.

Lemma test_grad_paths_shape_witness :
  exists out tr,
    cdeint Sample.odeint Sample.odeint TestSample.X3 TestSample.test_func (VTensor Sample.z0)
           [0; 9]%Z true "matmul" ∅
    = (Ok (VTensor out), tr) /\
    shape out = [1; 2; 3].
Proof.
  edestruct (test_grad_paths_shape Z.succ Sample.odeint Sample.odeint TestSample.X3
               (fun t => Ok (VTensor (mkTensor [1; 3] [t; 1; 2]%Z))) 3 3
               [10; 20; 30]%Z Sample.z0 (mkTensor [1; 3] [0; 1; 2]%Z)
               (Sample.stack 2 Sample.z0) 0%Z [9%Z] true ∅ []) as [_ Hrun].
  - reflexivity.
  - reflexivity.
  - reflexivity.
  - reflexivity.
  - reflexivity.
  - reflexivity.
  - reflexivity.
  - reflexivity.
  - exact Hrun.
Defined.

(** ** Lists in place of tuples *)

Section ListTupleFacts.
Context {A : Type} `{Scalar A}.













End ListTupleFacts.

(** ** Instances with a list as the initial state *)


